(** * market_game: the ring-buffered market recorder

    A shallow embedding of [src/dhan_incremental_util.py] (the incremental
    recorder: [RingBuffer], [MarketRecorder.market_data_loop],
    [MarketRecorder.parquet_flush], [MarketRecorder.run]).  The class
    [RingBuffer] is repeated verbatim in [market_recorder.py] and
    [data_from_dhan_util.py], where [linear_view] is called [snapshot].

    Python objects are mutable and keep their state when a call raises, so
    effectful code lives in a state monad whose outcomes are a value or a
    raised exception, the state surviving both. *)

From Stdlib Require Import ZArith String Ascii DecimalString Lia.
From Stdlib.Strings Require Import Byte.
From stdpp Require Import base list strings.

Set Default Proof Using "Type".
Local Open Scope list_scope.
Local Open Scope nat_scope.

(* ================================================================== *)
(** ** Outcomes and the state-and-exception monad *)
(* ================================================================== *)

(** The Python exceptions the modelled code can meet. *)
Inductive exn : Type :=
| IndexError          (* buffer[write_idx] out of range *)
| ZeroDivisionError   (* ... % self.size with size 0 *)
| OSError             (* a file-system or parquet call failed *)
| AssertionError      (* pyarrow: write_table on a closed writer *)
| AttributeError      (* a method called on None *)
| OverflowError       (* a Python int out of the range of a numpy field *)
| CancelledError.     (* asyncio cancellation *)

(** [OutOfFuel] is not a Python outcome: it says that the step budget of a
    [while] loop was used up while the loop was still running. *)
Inductive result (X : Type) : Type :=
| Ok (x : X)
| Raise (e : exn)
| OutOfFuel.
Arguments Ok {X} x.
Arguments Raise {X} e.
Arguments OutOfFuel {X}.

Definition M (S X : Type) : Type := S -> S * result X.

Definition ret {S X} (x : X) : M S X := fun s => (s, Ok x).

Definition bind {S X Y} (m : M S X) (k : X -> M S Y) : M S Y :=
  fun s =>
    match m s with
    | (s', Ok x) => k x s'
    | (s', Raise e) => (s', Raise e)
    | (s', OutOfFuel) => (s', OutOfFuel)
    end.

Definition raise {S X} (e : exn) : M S X := fun s => (s, Raise e).
Definition get {S} : M S S := fun s => (s, Ok s).

Notation "x <- m ;; k" := (bind m (fun x => k))
  (at level 100, m at next level, right associativity).
Notation "m ;;; k" := (bind m (fun _ => k))
  (at level 100, right associativity).

(** Running a computation that lives on a component of the state. *)
Definition zoom {S T X} (proj : S -> T) (inj : T -> S -> S) (m : M T X) : M S X :=
  fun s => let '(t, r) := m (proj s) in (inj t s, r).

(** [for x in xs: body(x)] *)
Fixpoint for_each {S X} (body : X -> M S unit) (xs : list X) : M S unit :=
  match xs with
  | [] => ret tt
  | x :: xs' => body x ;;; for_each body xs'
  end.

(** Python slice [l[a:b]] for [0 <= a], [0 <= b]. *)
Definition slice {X} (a b : nat) (l : list X) : list X := drop a (take b l).

(* ================================================================== *)
(** ** class RingBuffer *)
(* ================================================================== *)

Section RingBuffer.
Context {A : Type}.

Record RingBuffer : Type := mkRing {
  buffer : list A;
  size : nat;
  write_idx : nat;
  full : bool
}.

(** [RingBuffer(size, dtype)]: [np.empty(size)] has [size] slots of
    unspecified content, the list [uninit], whose length is [size]. *)
Definition RingBuffer_init (uninit : list A) : RingBuffer :=
  {| buffer := uninit; size := length uninit; write_idx := 0; full := false |}.

(** [append(self, row)].  The slot assignment raises on an index out of
    range; it has taken effect when the modulus raises. *)
Definition append (row : A) : M RingBuffer unit := fun rb =>
  if decide (write_idx rb < length (buffer rb)) then
    let buf := <[write_idx rb := row]> (buffer rb) in
    if decide (size rb = 0) then
      (mkRing buf (size rb) (write_idx rb) (full rb), Raise ZeroDivisionError)
    else
      let w := (write_idx rb + 1) mod size rb in
      (mkRing buf (size rb) w (if decide (w = 0) then true else full rb), Ok tt)
  else (rb, Raise IndexError).

(** [linear_view(self)] (alias [snapshot]). *)
Definition linear_view : M RingBuffer (list A) :=
  rb <- get ;;
  if negb (full rb) then ret (take (write_idx rb) (buffer rb))
  else ret (drop (write_idx rb) (buffer rb) ++ take (write_idx rb) (buffer rb)).

(** The sequence [linear_view] returns, as a function of the state. *)
Definition view (rb : RingBuffer) : list A :=
  if full rb then drop (write_idx rb) (buffer rb) ++ take (write_idx rb) (buffer rb)
  else take (write_idx rb) (buffer rb).

(** Appending a whole sequence, stopping at the first exception. *)
Definition append_all (rows : list A) : M RingBuffer unit := for_each append rows.

(** What the constructor and [append] maintain. *)
Definition ring_wf (rb : RingBuffer) : Prop :=
  length (buffer rb) = size rb /\ write_idx rb < size rb.
(** [tracks C hist rb]: [rb] is a buffer of capacity [C] into which the
    rows [hist] have been appended, in this order, since construction. *)
Definition tracks (C : nat) (hist : list A) (rb : RingBuffer) : Prop :=
  length (buffer rb) = C /\ size rb = C /\
  (write_idx rb < C \/ (C = 0 /\ write_idx rb = 0)) /\
  view rb = drop (length hist - C) hist /\
  (full rb = false -> length hist < C \/ C = 0) /\
  (full rb = true -> C <= length hist).
End RingBuffer.
Arguments RingBuffer A : clear implicits.

(* ================================================================== *)
(** ** The outside world: clocks, the file system, parquet writers *)
(* ================================================================== *)

(** A reading of [datetime.now()], to the minute. *)
Record datetime : Type := mkDatetime {
  year : nat; month : nat; day : nat; hour : nat; minute : nat
}.

Definition digit (n : nat) : ascii := ascii_of_nat (48 + n mod 10).

(** [n] in decimal, zero-padded to [width] digits. *)
Fixpoint digits (width n : nat) : string :=
  match width with
  | 0 => EmptyString
  | S w => (digits w (n / 10) ++ String (digit n) EmptyString)%string
  end.

(** [d.strftime("%Y-%m-%d")] *)
Definition strftime_Ymd (d : datetime) : string :=
  (digits 4 (year d) ++ "-" ++ digits 2 (month d) ++ "-" ++ digits 2 (day d))%string.

(** [d.strftime("%H_%M")] *)
Definition strftime_HM (d : datetime) : string :=
  (digits 2 (hour d) ++ "_" ++ digits 2 (minute d))%string.

(** [f"{d:%Y%m%d_%H%M}"] *)
Definition format_YmdHM (d : datetime) : string :=
  (digits 4 (year d) ++ digits 2 (month d) ++ digits 2 (day d) ++ "_"
   ++ digits 2 (hour d) ++ digits 2 (minute d))%string.

(** [os.path.join(a, b)] for a relative, non-empty [b]. *)
Definition path_join (a b : string) : string := (a ++ "/" ++ b)%string.

Definition BASE_DIR : string := "market_data"%string.
Definition INSTRUMENT : string := "NIFTY_FUT"%string.

(** [pq.ParquetWriter]: the file it was opened on and pyarrow's [is_open]. *)
Record ParquetWriter : Type := mkWriter { wpath : string; is_open : bool }.

Section Recorder.
Context {A : Type}.

(** What the recorder does to the file system, in order. *)
Inductive io_event : Type :=
| Makedirs (dir : string)                       (* os.makedirs(dir, exist_ok=True) *)
| WriterOpen (path : string)                    (* pq.ParquetWriter(path, ...) *)
| WriterWrite (path : string) (rows : list A)   (* writer.write_table(table) *)
| WriterClose (path : string)                   (* writer.close() *)
| WriteTable (path : string) (rows : list A).   (* pq.write_table(table, path, ...) *)

(** The environment: the log of file-system effects so far, the fate of
    the coming file-system calls ([true]: the call raises; a call past the
    end of the list succeeds), and the two clocks with the number of
    readings taken from each. *)
Record World : Type := mkWorld {
  log : list io_event;
  faults : list bool;
  wall_clock : nat -> datetime;
  wall_reads : nat;
  ns_clock : nat -> Z;
  ns_reads : nat
}.

(** The fields of [MarketRecorder] the loops read and write. *)
Record MarketRecorder : Type := mkRecorder {
  ring : RingBuffer A;
  last_flush_idx : nat;
  parquet_writer : option ParquetWriter;
  current_file_path : option string
}.

Record State : Type := mkState { self : MarketRecorder; env : World }.

(** [MarketRecorder(fd, buffer_size, flush_interval)] *)
Definition MarketRecorder_init (uninit : list A) : MarketRecorder :=
  {| ring := RingBuffer_init uninit; last_flush_idx := 0;
     parquet_writer := None; current_file_path := None |}.

Definition init (uninit : list A) (w : World) : State :=
  {| self := MarketRecorder_init uninit; env := w |}.

Definition set_ring (r : RingBuffer A) (s : State) : State :=
  mkState (mkRecorder r (last_flush_idx (self s)) (parquet_writer (self s))
                      (current_file_path (self s))) (env s).
Definition set_last_flush_idx (n : nat) : M State unit := fun s =>
  (mkState (mkRecorder (ring (self s)) n (parquet_writer (self s))
                       (current_file_path (self s))) (env s), Ok tt).
Definition set_parquet_writer (w : option ParquetWriter) : M State unit := fun s =>
  (mkState (mkRecorder (ring (self s)) (last_flush_idx (self s)) w
                       (current_file_path (self s))) (env s), Ok tt).
Definition set_current_file_path (p : option string) : M State unit := fun s =>
  (mkState (mkRecorder (ring (self s)) (last_flush_idx (self s))
                       (parquet_writer (self s)) p) (env s), Ok tt).

(** [self.ring.m(...)] *)
Definition on_ring {X} (m : M (RingBuffer A) X) : M State X :=
  zoom (fun s => ring (self s)) set_ring m.

(** One file-system call: it raises or takes effect, as [faults] says. *)
Definition io (ev : io_event) : M State unit := fun s =>
  let w := env s in
  match faults w with
  | true :: fs =>
      (mkState (self s) (mkWorld (log w) fs (wall_clock w) (wall_reads w)
                                 (ns_clock w) (ns_reads w)), Raise OSError)
  | false :: fs =>
      (mkState (self s) (mkWorld (log w ++ [ev]) fs (wall_clock w) (wall_reads w)
                                 (ns_clock w) (ns_reads w)), Ok tt)
  | [] =>
      (mkState (self s) (mkWorld (log w ++ [ev]) [] (wall_clock w) (wall_reads w)
                                 (ns_clock w) (ns_reads w)), Ok tt)
  end.

(** [datetime.now()] *)
Definition datetime_now : M State datetime := fun s =>
  let w := env s in
  (mkState (self s) (mkWorld (log w) (faults w) (wall_clock w) (S (wall_reads w))
                             (ns_clock w) (ns_reads w)),
   Ok (wall_clock w (wall_reads w))).

(** [time.time_ns()] *)
Definition time_ns : M State Z := fun s =>
  let w := env s in
  (mkState (self s) (mkWorld (log w) (faults w) (wall_clock w) (wall_reads w)
                             (ns_clock w) (S (ns_reads w))),
   Ok (ns_clock w (ns_reads w))).

(** [self.parquet_writer.close()]: pyarrow closes an open writer and
    leaves a closed one alone. *)
Definition writer_close : M State unit :=
  s <- get ;;
  match parquet_writer (self s) with
  | Some wr =>
      if is_open wr then
        io (WriterClose (wpath wr)) ;;;
        set_parquet_writer (Some (mkWriter (wpath wr) false))
      else ret tt
  | None => raise AttributeError
  end.

(** [self.parquet_writer.write_table(table)]: pyarrow asserts [is_open]. *)
Definition writer_write_table (rows : list A) : M State unit :=
  s <- get ;;
  match parquet_writer (self s) with
  | Some wr =>
      if is_open wr then io (WriterWrite (wpath wr) rows)
      else raise AssertionError
  | None => raise AttributeError
  end.

(** The bucket file of a flush tick, from its two clock readings. *)
Definition bucket_dir (d1 : datetime) : string :=
  path_join (path_join BASE_DIR INSTRUMENT) (strftime_Ymd d1).
Definition bucket_path (d1 d2 : datetime) : string :=
  path_join (bucket_dir d1) (strftime_HM d2 ++ ".parquet")%string.

Definition needs_new_writer (m : MarketRecorder) (file_path : string) : bool :=
  match parquet_writer m with
  | None => true
  | Some _ => negb (bool_decide (current_file_path m = Some file_path))
  end.

(** One iteration of the [while True] of [parquet_flush], after the
    [await asyncio.sleep]: lines 96-129.  Nothing is awaited inside, so the
    view read at the top is the one sliced and written; [print] is left
    out, here and in [shutdown]. *)
Definition flush_tick : M State unit :=
  data <- on_ring linear_view ;;
  let total_rows := length data in
  s <- get ;;
  if decide (total_rows <= last_flush_idx (self s)) then ret tt
  else
    let new_rows := slice (last_flush_idx (self s)) total_rows data in
    set_last_flush_idx total_rows ;;;
    d1 <- datetime_now ;;
    d2 <- datetime_now ;;
    let dir_path := bucket_dir d1 in
    io (Makedirs dir_path) ;;;
    let file_path := bucket_path d1 d2 in
    s1 <- get ;;
    (if needs_new_writer (self s1) file_path then
       (match parquet_writer (self s1) with
        | Some _ => writer_close
        | None => ret tt
        end) ;;;
       io (WriterOpen file_path) ;;;
       set_parquet_writer (Some (mkWriter file_path true)) ;;;
       set_current_file_path (Some file_path)
     else ret tt) ;;;
    writer_write_table new_rows.

(** [parquet_flush], for the ticks its timer gets to fire. *)
Fixpoint parquet_flush (ticks : nat) : M State unit :=
  match ticks with
  | 0 => ret tt
  | S n => flush_tick ;;; parquet_flush n
  end.

(** The name of the file of the final flush. *)
Definition final_path (d : datetime) : string :=
  (INSTRUMENT ++ "_" ++ format_YmdHM d ++ "_FINAL.parquet")%string.

(** The handler of [asyncio.CancelledError] in [run], once both tasks
    have been cancelled and awaited: lines 152-165. *)
Definition shutdown : M State unit :=
  data <- on_ring linear_view ;;
  s <- get ;;
  (if decide (last_flush_idx (self s) < length data) then
     d <- datetime_now ;;
     io (WriteTable (final_path d) (drop (last_flush_idx (self s)) data))
   else ret tt) ;;;
  s1 <- get ;;
  (match parquet_writer (self s1) with
   | Some _ => writer_close
   | None => ret tt
   end) ;;;
  raise CancelledError.

(** The tasks of [run] give up control only at their [await]s, so an
    execution is a sequence of atomic operations on the recorder: a row
    appended by the ingest loop, a reading of the view, a flush tick, and
    the cancellation of [run].  An exception ends the execution: [run]
    handles [CancelledError] only, by [shutdown], and that raises again. *)
Inductive op : Type :=
| OpAppend (row : A)
| OpView
| OpTick
| OpCancel.

Definition step (o : op) : M State unit :=
  match o with
  | OpAppend row => on_ring (append row)
  | OpView => _ <- on_ring linear_view ;; ret tt
  | OpTick => flush_tick
  | OpCancel => shutdown
  end.

Definition run (ops : list op) : M State unit := for_each step ops.

(** *** Observations used in the statements *)

(** The rows handed to a writer, in order, over the whole log. *)
Definition rows_of (ev : io_event) : list A :=
  match ev with
  | WriterWrite _ rows => rows
  | WriteTable _ rows => rows
  | _ => []
  end.
Definition written (l : list io_event) : list A := concat (map rows_of l).

(** The rows an execution appends, and those it appends after its last
    flush tick. *)
Fixpoint history (ops : list op) (acc : list A * list A) : list A * list A :=
  match ops with
  | [] => acc
  | OpAppend row :: ops' => history ops' (acc.1 ++ [row], acc.2 ++ [row])
  | OpTick :: ops' => history ops' (acc.1, [])
  | _ :: ops' => history ops' acc
  end.
Definition appended (ops : list op) : list A := (history ops ([], [])).1.
Definition since_last_tick (ops : list op) : list A := (history ops ([], [])).2.

(** The rows of the view beyond the flush cursor. *)
Definition pending (m : MarketRecorder) : list A :=
  drop (last_flush_idx m) (view (ring m)).

(** The writer events a flush tick needs before it can write to [path]. *)
Definition rollover_events (m : MarketRecorder) (path : string) : list io_event :=
  match parquet_writer m with
  | None => [WriterOpen path]
  | Some wr =>
      if bool_decide (current_file_path m = Some path) then []
      else [WriterClose (wpath wr); WriterOpen path]
  end.

(** What [shutdown] does to the file system when no call fails: the final
    file if there are rows beyond the cursor, then the writer's close. *)
Definition shutdown_events (m : MarketRecorder) (d : datetime) : list io_event :=
  (if decide (last_flush_idx m < length (view (ring m)))
   then [WriteTable (final_path d) (pending m)] else [])
  ++ match parquet_writer m with
     | Some wr => if is_open wr then [WriterClose (wpath wr)] else []
     | None => []
     end.

(** Every operation applied in turn, whatever its outcome. *)
Fixpoint apply_ops (ops : list op) (s : State) : State :=
  match ops with
  | [] => s
  | o :: ops' => apply_ops ops' (step o s).1
  end.

(** An open writer is the one of [current_file_path]. *)
Definition writer_wf (m : MarketRecorder) : Prop :=
  match parquet_writer m with
  | Some wr => is_open wr = true /\ current_file_path m = Some (wpath wr)
  | None => True
  end.
(** [inv C W0 acc s]: the recorder of capacity [C], started on a log that
    had handed [W0] to writers, has been appended the rows [acc.1], of
    which [acc.2] after the last flush tick. *)
Definition inv (C : nat) (W0 : list A) (acc : list A * list A) (s : State) : Prop :=
  tracks C acc.1 (ring (self s)) /\
  writer_wf (self s) /\
  (exists older, acc.1 = older ++ acc.2) /\
  last_flush_idx (self s) = (length acc.1 - length acc.2) `min` C /\
  (length acc.1 <= C ->
     written (log (env s)) = W0 ++ take (last_flush_idx (self s)) acc.1).
End Recorder.
Arguments io_event A : clear implicits.
Arguments World A : clear implicits.
Arguments MarketRecorder A : clear implicits.
Arguments State A : clear implicits.
Arguments op A : clear implicits.
Arguments bucket_path : simpl never.
Arguments bucket_dir : simpl never.
Arguments final_path : simpl never.
Arguments slice : simpl never.

(* ================================================================== *)
(** ** The single-shot recorders of the other two files *)
(* ================================================================== *)

(** [market_recorder.py] and [data_from_dhan_util.py] hold earlier
    versions of [MarketRecorder]: the same ring, no cursor, no long-lived
    writer.  Each tick writes the whole snapshot with [pq.write_table]. *)
Module SingleShot.
Section SingleShot.
Context {A : Type}.

(** [time.strftime("nifty_fut_%Y%m%d_%H%M.parquet")] *)
Definition snapshot_path (d : datetime) : string :=
  ("nifty_fut_" ++ format_YmdHM d ++ ".parquet")%string.

(** [time.strftime("nifty_fut_%Y%m%d_%H%M_FINAL.parquet")] *)
Definition final_snapshot_path (d : datetime) : string :=
  ("nifty_fut_" ++ format_YmdHM d ++ "_FINAL.parquet")%string.

(** [market_recorder.py], one iteration of [parquet_flush]: lines 75-85. *)
Definition flush_tick_snapshot : M (State A) unit :=
  snapshot <- on_ring linear_view ;;
  if decide (length snapshot = 0) then ret tt
  else
    d <- datetime_now ;;
    io (WriteTable (snapshot_path d) snapshot).

(** [data_from_dhan_util.py], one iteration of [parquet_flush]: lines 119-141. *)
Definition flush_tick_bucket : M (State A) unit :=
  snapshot <- on_ring linear_view ;;
  if decide (length snapshot = 0) then ret tt
  else
    d1 <- datetime_now ;;
    d2 <- datetime_now ;;
    io (Makedirs (bucket_dir d1)) ;;;
    io (WriteTable (bucket_path d1 d2) snapshot).

(** [data_from_dhan_util.py], the handler of [CancelledError] in [run]:
    lines 150-157. *)
Definition shutdown_snapshot : M (State A) unit :=
  snapshot <- on_ring linear_view ;;
  (if decide (length snapshot = 0) then ret tt
   else
     d <- datetime_now ;;
     io (WriteTable (final_snapshot_path d) snapshot)) ;;;
  raise CancelledError.
End SingleShot.
End SingleShot.

(* ================================================================== *)
(** ** DTYPE: what a slot of the buffer takes from a tuple *)
(* ================================================================== *)

(** [update["security_id"]] is an int or a str; the loop takes its [str]. *)
Inductive pyval : Type :=
| PyInt (z : Z)
| PyStr (s : string).

Definition py_str (v : pyval) : string :=
  match v with
  | PyInt z => NilZero.string_of_int (Z.to_int z)
  | PyStr s => s
  end.

(** A price as the feed gives it: a Python float, which is a float64
    already, or a Python int. *)
Inductive pynum (F : Type) : Type :=
| NumFloat (x : F)
| NumInt (z : Z).
Arguments NumFloat {F} x.
Arguments NumInt {F} z.

(** The values of a signed integer field of [bits] bits. *)
Definition int_fits (bits z : Z) : bool :=
  ((- 2 ^ (bits - 1) <=? z) && (z <? 2 ^ (bits - 1)))%Z.

(** A Python int assigned to an [int64] or [int32] field: numpy raises
    [OverflowError] on a value out of the field's range. *)
Definition cast_int (bits z : Z) : exn + Z :=
  if int_fits bits z then inr z else inl OverflowError.

(** A Python number assigned to a [float64] field: a float as it is, an
    int through [float_of_int], numpy's conversion, which rounds and which
    raises [OverflowError] (here [None]) on an int beyond the floats. *)
Definition cast_float64 {F} (float_of_int : Z -> option F) (v : pynum F) : exn + F :=
  match v with
  | NumFloat x => inr x
  | NumInt z =>
      match float_of_int z with
      | Some x => inr x
      | None => inl OverflowError
      end
  end.

Fixpoint str_take (n : nat) (s : string) : string :=
  match n, s with
  | S n', String a s' => String a (str_take n' s')
  | _, _ => EmptyString
  end.

Fixpoint rstrip_nul (s : string) : string :=
  match s with
  | EmptyString => EmptyString
  | String a s' =>
      match rstrip_nul s' with
      | EmptyString => if Ascii.eqb a zero then EmptyString else String a EmptyString
      | t => String a t
      end
  end.

(** A str assigned to a field ["U<n>"] and read back: the field keeps the
    first [n] characters and pads with NUL characters, which reading drops
    from the end. *)
Definition cast_U (n : nat) (s : string) : string := rstrip_nul (str_take n s).

(* ================================================================== *)
(** ** MarketRecorder.market_data_loop *)
(* ================================================================== *)

Section Ingest.
Context {Price : Type}.

(** A record of [DTYPE] (lines 13-19), as a slot of the buffer holds it:
    [ts] an int64, [security_id] of at most 20 characters, [side] of at
    most 3, [price] a float64, [qty] an int32. *)
Record Row : Type := mkRow {
  ts : Z;
  security_id : string;
  side : string;
  price : Price;
  qty : Z
}.

(** The tuple the loop hands to [append] (lines 78-84), Python values
    not yet cast to [DTYPE]. *)
Record Tuple : Type := mkTuple {
  tuple_ts : Z;
  tuple_security_id : string;
  tuple_side : string;
  tuple_price : pynum Price;
  tuple_qty : Z
}.

(** One element of [update["depth"]]. *)
Record Level : Type := mkLevel { level_price : pynum Price; level_quantity : Z }.

(** What [fd.process_data] returns when it returns something truthy. *)
Record Update : Type := mkUpdate {
  update_type : string;
  update_security_id : pyval;
  update_depth : list Level;
  remaining_data : option (list byte)
}.

(** numpy's conversion of a Python int to a float64. *)
Variable float_of_int : Z -> option Price.

(** What a slot holds after an assignment that raised: numpy sets the
    fields of the slot one after the other, and how far it got before the
    field that does not convert is left open here. *)
Variable half_written : Row -> Tuple -> Row.

(** [self.fd.process_data], the parser of the feed. *)
Variable process_data : list byte -> option Update.

(** The cast of a tuple to [DTYPE], field by field. *)
Definition cast (t : Tuple) : exn + Row :=
  match cast_int 64 (tuple_ts t) with
  | inl e => inl e
  | inr t64 =>
      match cast_float64 float_of_int (tuple_price t) with
      | inl e => inl e
      | inr p =>
          match cast_int 32 (tuple_qty t) with
          | inl e => inl e
          | inr q =>
              inr (mkRow t64 (cast_U 20 (tuple_security_id t))
                         (cast_U 3 (tuple_side t)) p q)
          end
      end
  end.

(** [self.ring.append(tuple)] on the buffer of dtype [DTYPE]: line 32,
    [self.buffer[self.write_idx] = row], finds the slot (or raises
    [IndexError]) and casts the tuple into it; when the cast raises,
    [write_idx] and [full] are as they were.  With the cast done the
    call is [append] of the record. *)
Definition append_tuple (t : Tuple) : M (RingBuffer Row) unit := fun rb =>
  match buffer rb !! write_idx rb with
  | None => (rb, Raise IndexError)
  | Some old =>
      match cast t with
      | inr row => append row rb
      | inl e =>
          (mkRing (<[write_idx rb := half_written old t]> (buffer rb))
                  (size rb) (write_idx rb) (full rb),
           Raise e)
      end
  end.

(** The truth value of [remaining]: [None] and [b""] are false. *)
Definition truthy (remaining : option (list byte)) : bool :=
  match remaining with
  | Some (_ :: _) => true
  | _ => false
  end.

(** [update["type"] in ("Bid", "Ask")] *)
Definition is_bid_or_ask (t : string) : bool :=
  bool_decide (t = "Bid"%string) || bool_decide (t = "Ask"%string).

(** The tuple of lines 78-84 for a level, [t] the reading of the clock. *)
Definition tuple_of (update : Update) (level : Level) (t : Z) : Tuple :=
  mkTuple t (py_str (update_security_id update)) (update_type update)
          (level_price level) (level_quantity level).

(** The body of [for level in update["depth"]]. *)
Definition append_level (update : Update) (level : Level) : M (State Row) unit :=
  t <- time_ns ;;
  on_ring (append_tuple (tuple_of update level t)).

(** [while remaining: ...], lines 67-84, on a budget of iterations. *)
Fixpoint drain (fuel : nat) (remaining : option (list byte)) {struct fuel}
  : M (State Row) unit :=
  if truthy remaining then
    match fuel with
    | 0 => fun s => (s, OutOfFuel)
    | S fuel' =>
        match process_data (default [] remaining) with
        | None => ret tt
        | Some update =>
            let remaining' := remaining_data update in
            if negb (is_bid_or_ask (update_type update)) then drain fuel' remaining'
            else
              for_each (append_level update) (update_depth update) ;;;
              drain fuel' remaining'
        end
    end
  else ret tt.

(** One turn of the outer [while True]: the payload [ws.recv()] returned. *)
Definition on_message (fuel : nat) (raw : list byte) : M (State Row) unit :=
  drain fuel (Some raw).

(** [market_data_loop], once connected, for the payloads the feed delivers. *)
Definition market_data_loop (fuel : nat) (payloads : list (list byte))
  : M (State Row) unit :=
  for_each (on_message fuel) payloads.

(** The tuples the loop builds for the levels of an update, the first
    timestamp being reading [n] of the clock. *)
Definition tuples_of_levels (clock : nat -> Z) (n : nat) (update : Update)
    (levels : list Level) : list Tuple :=
  imap (fun i level => tuple_of update level (clock (n + i))) levels.

(** [casts_to tuples rows]: every tuple casts to [DTYPE] without raising,
    and [rows] are the records the casts give, in order. *)
Definition casts_to (tuples : list Tuple) (rows : list Row) : Prop :=
  Forall2 (fun t row => cast t = inr row) tuples rows.

(** The state after [k] readings of [time.time_ns()] and with ring [rb]. *)
Definition ingested (rb : RingBuffer Row) (k : nat) (s : State Row) : State Row :=
  let w := env s in
  mkState (mkRecorder rb (last_flush_idx (self s)) (parquet_writer (self s))
                      (current_file_path (self s)))
          (mkWorld (log w) (faults w) (wall_clock w) (wall_reads w)
                   (ns_clock w) (ns_reads w + k)).
End Ingest.
Arguments Row Price : clear implicits.
Arguments Tuple Price : clear implicits.
Arguments Level Price : clear implicits.
Arguments Update Price : clear implicits.

(* ================================================================== *)
(** ** market_recorder.py: MarketRecorder.market_data_loop *)
(* ================================================================== *)

(** The first version of the ingest loop: an update is one quote, with its
    own price and quantity and no depth levels; the timestamp is a reading
    of [time.time()], a float, and the [ts] field of its [DTYPE] (lines
    9-15) is a float64. *)
Section FlatIngest.
Context {Time Price : Type}.

(** A record of this [DTYPE], as a slot of the buffer holds it. *)
Record FlatRow : Type := mkFlatRow {
  flat_ts : Time;
  flat_security_id : string;
  flat_side : string;
  flat_price : Price;
  flat_qty : Z
}.

(** The tuple the loop hands to [append]: [(time.time(),
    update["security_id"], update["type"], update["price"],
    update["qty"])], the security id as the feed gave it. *)
Record FlatTuple : Type := mkFlatTuple {
  flat_tuple_ts : Time;
  flat_tuple_security_id : pyval;
  flat_tuple_side : string;
  flat_tuple_price : pynum Price;
  flat_tuple_qty : Z
}.

(** What [fd.process_data] returns to this loop when it is truthy. *)
Record FlatUpdate : Type := mkFlatUpdate {
  flat_update_type : string;
  flat_update_security_id : pyval;
  flat_update_price : pynum Price;
  flat_update_qty : Z;
  flat_remaining_data : option (list byte)
}.

(** numpy's conversion of a Python int to a float64. *)
Variable float_of_int : Z -> option Price.

(** What a slot holds after an assignment that raised. *)
Variable half_written : FlatRow -> FlatTuple -> FlatRow.

(** [self.fd.process_data] *)
Variable process_data : list byte -> option FlatUpdate.

(** The readings of [time.time()], the one clock this recorder reads; the
    world's count of clock readings counts them. *)
Variable time_time : nat -> Time.

Definition time_now : M (State FlatRow) Time := fun s =>
  let w := env s in
  (mkState (self s) (mkWorld (log w) (faults w) (wall_clock w) (wall_reads w)
                             (ns_clock w) (S (ns_reads w))),
   Ok (time_time (ns_reads w))).

(** The cast of a tuple to [DTYPE]: the float timestamp as it is, the
    security id through its [str] when it is an int. *)
Definition flat_cast (t : FlatTuple) : exn + FlatRow :=
  match cast_float64 float_of_int (flat_tuple_price t) with
  | inl e => inl e
  | inr p =>
      match cast_int 32 (flat_tuple_qty t) with
      | inl e => inl e
      | inr q =>
          inr (mkFlatRow (flat_tuple_ts t)
                         (cast_U 20 (py_str (flat_tuple_security_id t)))
                         (cast_U 3 (flat_tuple_side t)) p q)
      end
  end.

(** [self.ring.append(tuple)], line 26 casting the tuple into the slot. *)
Definition append_flat_tuple (t : FlatTuple) : M (RingBuffer FlatRow) unit := fun rb =>
  match buffer rb !! write_idx rb with
  | None => (rb, Raise IndexError)
  | Some old =>
      match flat_cast t with
      | inr row => append row rb
      | inl e =>
          (mkRing (<[write_idx rb := half_written old t]> (buffer rb))
                  (size rb) (write_idx rb) (full rb),
           Raise e)
      end
  end.

(** The tuple of lines 63-69, [t] the reading of the clock. *)
Definition flat_tuple_of (update : FlatUpdate) (t : Time) : FlatTuple :=
  mkFlatTuple t (flat_update_security_id update) (flat_update_type update)
              (flat_update_price update) (flat_update_qty update).

(** Lines 63-69: the append of the update's row. *)
Definition append_update (update : FlatUpdate) : M (State FlatRow) unit :=
  t <- time_now ;;
  on_ring (append_flat_tuple (flat_tuple_of update t)).

(** [while remaining: ...], lines 53-69, on a budget of iterations. *)
Fixpoint drain_flat (fuel : nat) (remaining : option (list byte)) {struct fuel}
  : M (State FlatRow) unit :=
  if truthy remaining then
    match fuel with
    | 0 => fun s => (s, OutOfFuel)
    | S fuel' =>
        match process_data (default [] remaining) with
        | None => ret tt
        | Some update =>
            let remaining' := flat_remaining_data update in
            if negb (is_bid_or_ask (flat_update_type update))
            then drain_flat fuel' remaining'
            else append_update update ;;; drain_flat fuel' remaining'
        end
    end
  else ret tt.

(** The updates one payload yields, and whether the loop gets to its end
    within the budget. *)
Fixpoint flat_chain (fuel : nat) (remaining : option (list byte)) {struct fuel}
  : list FlatUpdate * bool :=
  if truthy remaining then
    match fuel with
    | 0 => ([], false)
    | S fuel' =>
        match process_data (default [] remaining) with
        | None => ([], true)
        | Some update =>
            (update :: (flat_chain fuel' (flat_remaining_data update)).1,
             (flat_chain fuel' (flat_remaining_data update)).2)
        end
    end
  else ([], true).

(** One tuple per Bid or Ask update of a chain, the clock read once per
    tuple from reading [n] on. *)
Fixpoint tuples_of_flat_chain (n : nat) (us : list FlatUpdate) : list FlatTuple :=
  match us with
  | [] => []
  | u :: us' =>
      if is_bid_or_ask (flat_update_type u)
      then flat_tuple_of u (time_time n) :: tuples_of_flat_chain (S n) us'
      else tuples_of_flat_chain n us'
  end.

(** [flat_casts_to tuples rows]: every tuple casts without raising, and
    [rows] are the records the casts give, in order. *)
Definition flat_casts_to (tuples : list FlatTuple) (rows : list FlatRow) : Prop :=
  Forall2 (fun t row => flat_cast t = inr row) tuples rows.

(** The state after [k] readings of the clock and with ring [rb]. *)
Definition flat_ingested (rb : RingBuffer FlatRow) (k : nat) (s : State FlatRow)
  : State FlatRow :=
  let w := env s in
  mkState (mkRecorder rb (last_flush_idx (self s)) (parquet_writer (self s))
                      (current_file_path (self s)))
          (mkWorld (log w) (faults w) (wall_clock w) (wall_reads w)
                   (ns_clock w) (ns_reads w + k)).
End FlatIngest.
Arguments FlatRow Time Price : clear implicits.
Arguments FlatTuple Time Price : clear implicits.
Arguments FlatUpdate Price : clear implicits.

(* ================================================================== *)
(** ** Further observations on rings, logs and paths *)
(* ================================================================== *)

Section MoreObservations.
Context {A : Type}.

(** What construction and [append] maintain for any capacity, zero included. *)
Definition ring_ok (rb : RingBuffer A) : Prop :=
  length (buffer rb) = size rb /\
  (write_idx rb < size rb \/ (size rb = 0 /\ write_idx rb = 0 /\ full rb = false)).

(** [slots uninit hist rb]: where the rows [hist], appended to a buffer
    built on the storage [uninit], sit in [rb]: row [i] in slot
    [i mod C] as long as it is one of the last [C], the slots not yet
    written as the storage had them, [write_idx] at the slot of the next
    row, [full] set once [C] rows were appended. *)
Definition slots (uninit hist : list A) (rb : RingBuffer A) : Prop :=
  let C := length uninit in
  let n := length hist in
  length (buffer rb) = C /\ size rb = C /\
  write_idx rb = n mod C /\
  (full rb = true <-> 0 < C /\ C <= n) /\
  (forall i, i < n -> n <= i + C -> buffer rb !! (i mod C) = hist !! i) /\
  (forall j, n <= j -> buffer rb !! j = uninit !! j).


(** The protocol of the long-lived writer, read off a log: starting with
    the writer [cur] open (or none), a writer is opened only when none is
    open, written and closed only while it is the open one.  The result is
    the writer open at the end, or [None] when the log breaks the protocol. *)
Fixpoint writer_protocol (cur : option string) (l : list (io_event A))
  : option (option string) :=
  match l with
  | [] => Some cur
  | WriterOpen p :: l' =>
      match cur with
      | None => writer_protocol (Some p) l'
      | Some _ => None
      end
  | WriterWrite p _ :: l' =>
      if bool_decide (cur = Some p) then writer_protocol cur l' else None
  | WriterClose p :: l' =>
      if bool_decide (cur = Some p) then writer_protocol None l' else None
  | _ :: l' => writer_protocol cur l'
  end.
End MoreObservations.

Section IngestObservations.
Context {Price : Type}.
Variable process_data : list byte -> option (Update Price).

(** The updates one payload yields when [remaining_data] is followed as
    the loop follows it, and whether the loop gets to its end within the
    budget of iterations. *)
Fixpoint chain (fuel : nat) (remaining : option (list byte)) {struct fuel}
  : list (Update Price) * bool :=
  if truthy remaining then
    match fuel with
    | 0 => ([], false)
    | S fuel' =>
        match process_data (default [] remaining) with
        | None => ([], true)
        | Some update =>
            (update :: (chain fuel' (remaining_data update)).1,
             (chain fuel' (remaining_data update)).2)
        end
    end
  else ([], true).

(** The tuples the loop builds for a chain of updates: those of its Bid
    and Ask updates, in order, the clock read once per tuple from reading
    [n] on. *)
Fixpoint tuples_of_chain (clock : nat -> Z) (n : nat) (us : list (Update Price))
  : list (Tuple Price) :=
  match us with
  | [] => []
  | u :: us' =>
      if is_bid_or_ask (update_type u)
      then tuples_of_levels clock n u (update_depth u)
           ++ tuples_of_chain clock (n + length (update_depth u)) us'
      else tuples_of_chain clock n us'
  end.

(** [stamped C n0 clock hist s]: the rows [hist] ever appended to the
    recorder carry the readings of [clock] from reading [n0] on, in order. *)
Definition stamped (C n0 : nat) (clock : nat -> Z) (hist : list (Row Price))
    (s : State (Row Price)) : Prop :=
  tracks C hist (ring (self s)) /\
  ts <$> hist = clock <$> seq n0 (length hist) /\
  ns_reads (env s) = n0 + length hist /\
  ns_clock (env s) = clock.
End IngestObservations.

(** A reading of [datetime.now()] is a date and time of day in range. *)
Definition datetime_ok (d : datetime) : Prop :=
  year d < 10000 /\ month d < 100 /\ day d < 100 /\ hour d < 100 /\ minute d < 100.

(* ================================================================== *)
(** ** Concrete executions *)
(* ================================================================== *)

(** A world whose file system never fails; the wall clock gains a minute
    with each reading, from 2026-11-03 09:15. *)
Definition demo_world : World nat :=
  mkWorld [] [] (fun n => mkDatetime 2026 11 3 9 (15 + n)) 0
          (fun n => Z.of_nat (1000 + n)) 0.


(** A recorder of capacity 3 on zeroed storage. *)
Definition demo_init : State nat := init [0; 0; 0] demo_world.

(** Rows 1 and 2 flushed, row 3 appended since. *)
Definition demo_one_pending : State nat :=
  (run [OpAppend 1; OpAppend 2; OpTick; OpAppend 3] demo_init).1.

(** Row 1 flushed to the bucket of 09:16, row 2 appended since. *)
Definition demo_before_rollover : State nat :=
  (run [OpAppend 1; OpTick; OpAppend 2] demo_init).1.


(** Rows 1 and 2 flushed, rows 3 and 4 appended since: the buffer wrapped. *)
Definition demo_wrapped_ops : list (op nat) :=
  [OpAppend 1; OpAppend 2; OpTick; OpAppend 3; OpAppend 4].

(** In the concrete executions a float64 is written as the integer it
    equals; the ints converted there are small and convert exactly. *)
Definition demo_float_of_int (z : Z) : option Z := Some z.

(** No assignment raises in the executions that use it: a numpy that
    leaves the slot as it was. *)
Definition demo_half_written (old : Row Z) (t : Tuple Z) : Row Z := old.

(** A feed with two payloads: a Bid update of two levels that chains to
    the second payload, and an update of another kind with no rest. *)
Definition demo_process_data (raw : list byte) : option (Update Z) :=
  match raw with
  | [x62] => Some (mkUpdate "Bid" (PyInt 53001)
                            [mkLevel (NumFloat 25010%Z) 75%Z;
                             mkLevel (NumInt 25005%Z) 150%Z]
                            (Some [x74]))
  | [x74] => Some (mkUpdate "Ticker" (PyInt 53001) [] None)
  | _ => None
  end.


Definition demo_ingest_init : State (Row Z) :=
  init (replicate 3 (mkRow 0%Z "" "" 0%Z 0%Z))
       (mkWorld [] [] (fun n => mkDatetime 2026 11 3 9 (15 + n)) 0
                (fun n => Z.of_nat (1000 + n)) 0).

(** Rows 1 to 3 appended: the buffer of capacity 3 is full. *)
Definition demo_full_ops : list (op nat) := [OpAppend 1; OpAppend 2; OpAppend 3].

(** Two flushes over two buckets, then the cancellation. *)
Definition demo_two_buckets_ops : list (op nat) :=
  [OpAppend 1; OpTick; OpAppend 2; OpTick; OpCancel].

(** Rows 1 to 4 appended to the recorder of capacity 3, nothing flushed. *)
Definition demo_four_appended : State nat :=
  (run [OpAppend 1; OpAppend 2; OpAppend 3; OpAppend 4] demo_init).1.

(** The feed of [market_recorder.py]: a Bid quote that chains to a quote
    of another kind. *)
Definition demo_flat_process_data (raw : list byte) : option (FlatUpdate Z) :=
  match raw with
  | [x62] => Some (mkFlatUpdate "Bid" (PyInt 53001) (NumFloat 25010%Z) 75%Z (Some [x74]))
  | [x74] => Some (mkFlatUpdate "Ticker" (PyInt 53001) (NumFloat 0%Z) 0%Z None)
  | _ => None
  end.

Definition demo_flat_half_written (old : FlatRow Z Z) (t : FlatTuple Z Z)
  : FlatRow Z Z := old.

Definition demo_flat_init : State (FlatRow Z Z) :=
  init (replicate 3 (mkFlatRow 0%Z "" "" 0%Z 0%Z))
       (mkWorld [] [] (fun n => mkDatetime 2026 11 3 9 (15 + n)) 0
                (fun n => Z.of_nat (1000 + n)) 0).

(* ================================================================== *)
(** ** Facts about the ring buffer *)
(* ================================================================== *)

Section RingFacts.
Context {A : Type}.
Implicit Types (rb : RingBuffer A) (x : A) (xs : list A).

Lemma linear_view_run rb : linear_view rb = (rb, Ok (view rb)).
Proof. unfold linear_view, view, bind, get, ret. by destruct (full rb). Qed.

Lemma ring_wf_init (uninit : list A) :
  0 < length uninit -> ring_wf (RingBuffer_init uninit).
Proof. intros H. split; simpl; [done | lia]. Qed.

(** A buffer of capacity 0 has no slot to write. *)
Lemma append_zero_capacity x :
  append x (RingBuffer_init []) = (RingBuffer_init [], Raise IndexError).
Proof. reflexivity. Qed.

Lemma append_ok rb x :
  ring_wf rb -> exists rb', append x rb = (rb', Ok tt) /\ ring_wf rb'.
Proof.
  intros [Hlen Hw]. unfold append.
  destruct (decide (write_idx rb < length (buffer rb))) as [_|]; [|lia].
  destruct (decide (size rb = 0)) as [|Hs]; [lia|].
  eexists; split; [reflexivity|].
  split; simpl; [by rewrite length_insert | by apply Nat.mod_upper_bound].
Qed.

(** An [append] that returns has found a slot: the capacity is positive. *)
Lemma append_Ok_inv rb x rb' :
  length (buffer rb) = size rb -> append x rb = (rb', Ok tt) ->
  write_idx rb < size rb /\ ring_wf rb'.
Proof.
  intros Hlen. unfold append.
  destruct (decide (write_idx rb < length (buffer rb))) as [Hw|]; [|done].
  destruct (decide (size rb = 0)) as [|Hs]; [done|].
  intros [= <-]. split; [lia|].
  split; simpl; [by rewrite length_insert | by apply Nat.mod_upper_bound].
Qed.

Lemma length_view rb :
  ring_wf rb -> length (view rb) = if full rb then size rb else write_idx rb.
Proof.
  intros [Hlen Hw]. unfold view. destruct (full rb).
  - rewrite length_app, length_drop, length_take. lia.
  - rewrite length_take. lia.
Qed.

(** The effect of one [append] on the linearized view: a buffer that is
    not full grows at the end, a full one also loses its oldest record. *)
Lemma view_append rb x rb' :
  ring_wf rb -> append x rb = (rb', Ok tt) ->
  view rb' = (if full rb then drop 1 (view rb) else view rb) ++ [x] /\
  full rb' = (if decide (S (write_idx rb) = size rb) then true else full rb) /\
  write_idx rb' = (if decide (S (write_idx rb) = size rb) then 0 else S (write_idx rb)) /\
  size rb' = size rb.
Proof.
  intros [Hlen Hw]. unfold append.
  destruct (decide (write_idx rb < length (buffer rb))) as [_|]; [|lia].
  destruct (decide (size rb = 0)) as [|Hs]; [lia|].
  intros [= <-]. unfold view; simpl.
  destruct (lookup_lt_is_Some_2 (buffer rb) (write_idx rb)) as [y Hy]; [lia|].
  assert (Hins : <[write_idx rb := x]> (buffer rb)
                 = take (write_idx rb) (buffer rb) ++ x :: drop (S (write_idx rb)) (buffer rb))
    by (apply insert_take_drop; lia).
  destruct (decide (S (write_idx rb) = size rb)) as [Heq|Hne].
  - replace ((write_idx rb + 1) mod size rb) with 0
      by (replace (write_idx rb + 1) with (size rb) by lia; by rewrite Nat.Div0.mod_same).
    simpl. repeat split; try done.
    rewrite drop_0, Hins, app_nil_r.
    assert (Hnil : drop (S (write_idx rb)) (buffer rb) = []) by (apply drop_ge; lia).
    rewrite Hnil. destruct (full rb); [|done].
    by rewrite (drop_S _ _ _ Hy), Hnil.
  - replace ((write_idx rb + 1) mod size rb) with (S (write_idx rb))
      by (rewrite Nat.mod_small; lia).
    destruct (decide (S (write_idx rb) = 0)); [lia|].
    repeat split; try done.
    assert (Htk : take (S (write_idx rb)) (<[write_idx rb:=x]> (buffer rb))
                  = take (write_idx rb) (buffer rb) ++ [x]).
    { rewrite Hins. rewrite take_app_ge; rewrite length_take; [|lia].
      by replace (S (write_idx rb) - write_idx rb `min` length (buffer rb)) with 1 by lia. }
    assert (Hdr : drop (S (write_idx rb)) (<[write_idx rb:=x]> (buffer rb))
                  = drop (S (write_idx rb)) (buffer rb))
      by (rewrite Hins, drop_app_ge; rewrite length_take; [|lia];
          by replace (S (write_idx rb) - write_idx rb `min` length (buffer rb)) with 1 by lia).
    rewrite Htk, Hdr. destruct (full rb); [|done].
    rewrite (drop_S _ _ _ Hy). simpl. rewrite drop_0. by rewrite <- app_assoc.
Qed.
End RingFacts.

(* ================================================================== *)
(** ** The ring buffer against the sequence of appended rows *)
(* ================================================================== *)

Section RingHistory.
Context {A : Type}.
Implicit Types (rb : RingBuffer A) (x : A) (xs hist : list A).

Lemma tracks_init (uninit : list A) :
  tracks (length uninit) [] (RingBuffer_init uninit).
Proof.
  unfold tracks, view; simpl. repeat split; try done; lia.
Qed.

Lemma tracks_append C hist rb x rb' :
  tracks C hist rb -> append x rb = (rb', Ok tt) ->
  tracks C (hist ++ [x]) rb' /\ 0 < C.
Proof.
  intros (Hlen & Hsz & Hw & Hv & Hnf & Hf) Happ.
  destruct (append_Ok_inv rb x rb') as [Hlt Hwf']; [congruence | done |].
  assert (Hwf : ring_wf rb) by (split; [congruence | done]).
  destruct (view_append rb x rb' Hwf Happ) as (Hv' & Hf' & Hw' & Hs').
  destruct Hwf' as [Hlen' Hlt'].
  split; [|lia].
  unfold tracks. rewrite length_app; simpl.
  split; [congruence|]. split; [congruence|]. split; [left; lia|].
  pose proof (length_view rb Hwf) as Hlv.
  destruct (full rb) eqn:Efull.
  - specialize (Hf eq_refl).
    split; [|split].
    + rewrite Hv', Hv, drop_drop.
      replace (length hist + 1 - C) with (length hist - C + 1) by lia.
      rewrite drop_app_le; [done | lia].
    + intros Hn. destruct (decide (S (write_idx rb) = size rb)); congruence.
    + intros _. lia.
  - destruct (Hnf eq_refl) as [Hlt0|?]; [|lia].
    assert (Hwi : write_idx rb = length hist).
    { rewrite Hv in Hlv. rewrite length_drop in Hlv. lia. }
    split; [|split].
    + rewrite Hv', Hv.
      replace (length hist - C) with 0 by lia.
      replace (length hist + 1 - C) with 0 by lia.
      by rewrite !drop_0.
    + intros Hn. rewrite Hf' in Hn.
      destruct (decide (S (write_idx rb) = size rb)); [done|]. lia.
    + intros Hn. rewrite Hf' in Hn.
      destruct (decide (S (write_idx rb) = size rb)); [lia | congruence].
Qed.

Lemma tracks_wf C hist rb : tracks C hist rb -> 0 < C -> ring_wf rb.
Proof. intros (Hlen & Hsz & Hw & _) HC. split; [congruence | lia]. Qed.

Lemma tracks_length_view C hist rb :
  tracks C hist rb -> length (view rb) = length hist `min` C.
Proof. intros (_ & _ & _ & Hv & _). rewrite Hv, length_drop. lia. Qed.

(** With a positive capacity every append returns. *)
Lemma append_all_tracks C hist rb xs :
  0 < C -> tracks C hist rb ->
  exists rb', append_all xs rb = (rb', Ok tt) /\ tracks C (hist ++ xs) rb'.
Proof.
  intros HC. revert hist rb. induction xs as [|x xs IH]; intros hist rb Ht.
  - exists rb. rewrite app_nil_r. done.
  - destruct (append_ok rb x (tracks_wf _ _ _ Ht HC)) as (rb1 & Happ & _).
    destruct (tracks_append _ _ _ _ _ Ht Happ) as [Ht1 _].
    destruct (IH _ _ Ht1) as (rb' & Hrun & Ht').
    exists rb'. split.
    + unfold append_all in *. simpl. unfold bind at 1. by rewrite Happ.
    + by rewrite <- app_assoc in Ht'.
Qed.
End RingHistory.

(* ================================================================== *)
(** ** One flush tick, one shutdown *)
(* ================================================================== *)

(** Unfolding the monadic plumbing of the recorder on a state. *)
Ltac exec_m :=
  repeat (unfold bind, get, ret, raise, datetime_now, io, needs_new_writer,
            writer_write_table, writer_close, set_parquet_writer,
            set_current_file_path, set_last_flush_idx; simpl).

Section RecorderSteps.
Context {A : Type}.
Implicit Types (s : State A) (m : MarketRecorder A) (w : World A).

Lemma slice_all {X} (c : nat) (l : list X) : slice c (length l) l = drop c l.
Proof. unfold slice. by rewrite firstn_all. Qed.

Lemma on_ring_view s : on_ring linear_view s = (s, Ok (view (ring (self s)))).
Proof. unfold on_ring, zoom. rewrite linear_view_run. by destruct s as [[] ?]. Qed.

Lemma written_app (l1 l2 : list (io_event A)) :
  written (l1 ++ l2) = written l1 ++ written l2.
Proof. unfold written. by rewrite map_app, concat_app. Qed.

(** A tick that finds nothing beyond the cursor changes nothing. *)
Lemma flush_tick_noop s :
  length (view (ring (self s))) <= last_flush_idx (self s) ->
  flush_tick s = (s, Ok tt).
Proof.
  intros H. unfold flush_tick. unfold bind at 1. rewrite on_ring_view.
  unfold bind, get. by destruct (decide _).
Qed.

(** A tick with rows beyond the cursor, when no file-system call fails. *)
Lemma flush_tick_ok s :
  last_flush_idx (self s) < length (view (ring (self s))) ->
  faults (env s) = [] -> writer_wf (self s) ->
  let w := env s in
  let d1 := wall_clock w (wall_reads w) in
  let d2 := wall_clock w (S (wall_reads w)) in
  let path := bucket_path d1 d2 in
  flush_tick s =
    (mkState (mkRecorder (ring (self s)) (length (view (ring (self s))))
                         (Some (mkWriter path true)) (Some path))
             (mkWorld (log w ++ Makedirs (bucket_dir d1)
                         :: rollover_events (self s) path
                         ++ [WriterWrite path (pending (self s))])
                      [] (wall_clock w) (S (S (wall_reads w)))
                      (ns_clock w) (ns_reads w)),
     Ok tt).
Proof.
  intros Hlt Hf Hwf. unfold flush_tick. unfold bind at 1. rewrite on_ring_view.
  destruct s as [[rg c pw cfp] [lg fl wc wr nc nr]]; simpl in *. subst fl.
  unfold bind at 1, get at 1. simpl.
  destruct (decide _) as [|_]; [lia|].
  rewrite slice_all. unfold pending, rollover_events, writer_wf in *; simpl in *.
  destruct pw as [[p o]|]; simpl in *.
  - destruct Hwf as [-> ->]. exec_m.
    destruct (bool_decide _) eqn:E; exec_m.
    + apply bool_decide_eq_true in E. injection E as ->.
      by rewrite <- !app_assoc.
    + by rewrite <- !app_assoc.
  - exec_m. by rewrite <- !app_assoc.
Qed.

Lemma written_snoc (l : list (io_event A)) ev :
  written (l ++ [ev]) = written l ++ rows_of ev.
Proof. rewrite written_app. unfold written; simpl. by rewrite app_nil_r. Qed.

(** Whatever the file system does, a tick leaves the ring alone, moves
    the cursor to the length of the view, and hands rows to a writer only
    when it returns: then, exactly the rows beyond the cursor. *)
Lemma flush_tick_any s s' r :
  flush_tick s = (s', r) ->
  ring (self s') = ring (self s) /\
  last_flush_idx (self s')
    = last_flush_idx (self s) `max` length (view (ring (self s))) /\
  (r = Ok tt ->
     written (log (env s')) = written (log (env s)) ++ pending (self s)) /\
  (r <> Ok tt ->
     written (log (env s')) = written (log (env s)) /\
     last_flush_idx (self s) < length (view (ring (self s))) /\
     exists e, r = Raise e) /\
  (writer_wf (self s) -> r = Ok tt -> writer_wf (self s')).
Proof.
  unfold flush_tick. unfold bind at 1. rewrite on_ring_view.
  destruct s as [[rg c pw cfp] [lg fl wc wr nc nr]].
  unfold bind at 1, get at 1. simpl.
  destruct (decide _) as [Hle|Hlt].
  { intros [= <- <-]; simpl. unfold pending; simpl.
    rewrite drop_ge by lia. rewrite app_nil_r.
    repeat split; try done; lia. }
  rewrite slice_all. unfold pending, writer_wf; simpl.
  assert (Hmax : c `max` length (view rg) = length (view rg)) by lia.
  rewrite Hmax. clear Hmax.
  assert (Hc : c < length (view rg)) by lia. clear Hlt.
  generalize dependent (drop c (view rg)). intros rows.
  generalize dependent (length (view rg)). intros N Hc.
  destruct pw as [[p [|]]|]; exec_m;
    destruct fl as [|[|] [|[|] [|[|] [|[|] fl]]]]; exec_m;
    repeat (match goal with
            | |- context [bool_decide ?P] => destruct (bool_decide P) eqn:?; exec_m
            end);
    intros [= <- <-]; simpl;
    rewrite ?written_snoc; simpl; rewrite ?app_nil_r;
    repeat split; try done; try tauto; try (intros; eauto; congruence); eauto.
Qed.

(** [shutdown] never returns: it raises, and leaves ring and cursor. *)
Lemma shutdown_any s s' r :
  shutdown s = (s', r) ->
  ring (self s') = ring (self s) /\
  last_flush_idx (self s') = last_flush_idx (self s) /\
  exists e, r = Raise e.
Proof.
  unfold shutdown. unfold bind at 1. rewrite on_ring_view.
  destruct s as [[rg c pw cfp] [lg fl wc wr nc nr]].
  unfold bind at 1, get at 1. simpl.
  destruct (decide _); destruct pw as [[p [|]]|]; exec_m;
    destruct fl as [|[|] [|[|] fl]]; exec_m;
    intros [= <- <-]; simpl; eauto.
Qed.

(** [shutdown] when no file-system call fails. *)
Lemma shutdown_ok s :
  faults (env s) = [] ->
  let w := env s in
  let d := wall_clock w (wall_reads w) in
  exists s',
    shutdown s = (s', Raise CancelledError) /\
    log (env s') = log w ++ shutdown_events (self s) d /\
    ring (self s') = ring (self s) /\
    last_flush_idx (self s') = last_flush_idx (self s) /\
    match parquet_writer (self s') with
    | Some wr => is_open wr = false
    | None => parquet_writer (self s) = None
    end.
Proof.
  intros Hf. unfold shutdown. unfold bind at 1. rewrite on_ring_view.
  destruct s as [[rg c pw cfp] [lg fl wc wr nc nr]]; simpl in *. subst fl.
  unfold bind at 1, get at 1. unfold shutdown_events, pending. simpl.
  destruct (decide _); destruct pw as [[p [|]]|]; exec_m;
    eexists; (split; [reflexivity|]); simpl;
    rewrite <- ?app_assoc, ?app_nil_r; done.
Qed.
End RecorderSteps.

(* ================================================================== *)
(** ** The single-shot recorders write the whole view *)
(* ================================================================== *)

Section SingleShotFacts.
Context {A : Type}.
Implicit Types (s : State A).

(** [market_recorder.py]: a tick on a non-empty view writes all of it, to
    a file named after the clock, whatever was written before. *)
Lemma flush_tick_snapshot_whole_view s :
  view (ring (self s)) <> [] -> faults (env s) = [] ->
  exists s',
    SingleShot.flush_tick_snapshot s = (s', Ok tt) /\
    self s' = self s /\
    log (env s')
      = log (env s)
        ++ [WriteTable (SingleShot.snapshot_path
                          (wall_clock (env s) (wall_reads (env s))))
                       (view (ring (self s)))].
Proof.
  intros Hne Hf. unfold SingleShot.flush_tick_snapshot.
  unfold bind at 1. rewrite on_ring_view.
  destruct (decide _) as [H0|_]; [by apply nil_length_inv in H0|].
  destruct s as [m [lg fl wc wr nc nr]]; simpl in *. subst fl.
  exec_m. eauto.
Qed.

(** [data_from_dhan_util.py]: the same, to the bucket file of the tick. *)
Lemma flush_tick_bucket_whole_view s :
  view (ring (self s)) <> [] -> faults (env s) = [] ->
  exists s',
    SingleShot.flush_tick_bucket s = (s', Ok tt) /\
    self s' = self s /\
    log (env s')
      = log (env s)
        ++ [Makedirs (bucket_dir (wall_clock (env s) (wall_reads (env s))));
            WriteTable (bucket_path (wall_clock (env s) (wall_reads (env s)))
                                    (wall_clock (env s) (S (wall_reads (env s)))))
                       (view (ring (self s)))].
Proof.
  intros Hne Hf. unfold SingleShot.flush_tick_bucket.
  unfold bind at 1. rewrite on_ring_view.
  destruct (decide _) as [H0|_]; [by apply nil_length_inv in H0|].
  destruct s as [m [lg fl wc wr nc nr]]; simpl in *. subst fl.
  exec_m. rewrite <- app_assoc. eauto.
Qed.

(** [data_from_dhan_util.py]: the final flush writes the whole view again. *)
Lemma shutdown_snapshot_whole_view s :
  view (ring (self s)) <> [] -> faults (env s) = [] ->
  exists s',
    SingleShot.shutdown_snapshot s = (s', Raise CancelledError) /\
    self s' = self s /\
    log (env s')
      = log (env s)
        ++ [WriteTable (SingleShot.final_snapshot_path
                          (wall_clock (env s) (wall_reads (env s))))
                       (view (ring (self s)))].
Proof.
  intros Hne Hf. unfold SingleShot.shutdown_snapshot.
  unfold bind at 1. rewrite on_ring_view.
  destruct (decide _) as [H0|_]; [by apply nil_length_inv in H0|].
  destruct s as [m [lg fl wc wr nc nr]]; simpl in *. subst fl.
  exec_m. eauto.
Qed.
End SingleShotFacts.

(* ================================================================== *)
(** ** Executions: the invariant of a run that has not raised *)
(* ================================================================== *)

Section Executions.
Context {A : Type}.
Implicit Types (s : State A) (ops : list (op A)) (acc : list A * list A).

Lemma inv_init (uninit : list A) (w : World A) :
  inv (length uninit) (written (log w)) ([], []) (init uninit w).
Proof.
  unfold inv; simpl. split; [apply tracks_init|].
  repeat split; try done.
  - by exists [].
  - intros _. by rewrite app_nil_r.
Qed.

Lemma history_app ops1 ops2 acc :
  history (ops1 ++ ops2) acc = history ops2 (history ops1 acc).
Proof.
  revert acc. induction ops1 as [|o ops1 IH]; intros acc; [done|].
  destruct o; simpl; apply IH.
Qed.

Lemma run_app ops1 ops2 s s1 :
  run ops1 s = (s1, Ok tt) -> run (ops1 ++ ops2) s = run ops2 s1.
Proof.
  revert s. induction ops1 as [|o ops1 IH]; intros s.
  - by intros [= ->].
  - unfold run in *. simpl. unfold bind at 1 2.
    destruct (step o s) as [s0 [[]| |]]; try done. apply IH.
Qed.

Lemma inv_step C W0 acc s o s' :
  inv C W0 acc s -> step o s = (s', Ok tt) ->
  inv C W0 (history [o] acc) s'.
Proof.
  intros (Ht & Hwf & [older Hold] & Hc & Hw) Hstep.
  destruct acc as [xs ys]; simpl in *.
  destruct o as [row| | |]; simpl in *.
  - unfold on_ring, zoom in Hstep.
    destruct (append row (ring (self s))) as [rb' r] eqn:Happ.
    injection Hstep as <- ->.
    destruct (tracks_append _ _ _ _ _ Ht Happ) as [Ht' HC].
    unfold inv; simpl. rewrite !length_app; simpl.
    split; [done|]. split; [done|].
    split; [exists older; by rewrite Hold, <- app_assoc|].
    split; [lia|].
    intros Hle. rewrite Hw by lia. rewrite take_app_le; [done | lia].
  - unfold bind in Hstep. rewrite on_ring_view in Hstep.
    injection Hstep as <-. unfold inv; simpl. eauto 10.
  - destruct (flush_tick_any _ _ _ Hstep) as (Hr & Hc' & Hok & _ & Hwf').
    pose proof (tracks_length_view _ _ _ Ht) as Hlen.
    unfold inv; simpl. rewrite Hr.
    split; [done|]. split; [by apply Hwf'|].
    split; [exists xs; by rewrite app_nil_r|].
    split; [lia|].
    intros Hle. rewrite (Hok eq_refl), Hw by done.
    destruct Ht as (_ & _ & _ & Hv & _).
    assert (Hvx : view (ring (self s)) = xs).
    { rewrite Hv. replace (length xs - C) with 0 by lia. apply drop_0. }
    unfold pending. rewrite Hc', Hvx.
    replace (last_flush_idx (self s) `max` length xs) with (length xs) by lia.
    rewrite firstn_all, <- app_assoc. f_equal. apply take_drop.
  - destruct (shutdown_any _ _ _ Hstep) as (_ & _ & e & He). done.
Qed.

Lemma inv_run C W0 ops : forall acc s s',
  inv C W0 acc s -> run ops s = (s', Ok tt) -> inv C W0 (history ops acc) s'.
Proof.
  induction ops as [|o ops IH]; intros acc s s' Hinv Hrun.
  - injection Hrun as <-. done.
  - unfold run in Hrun. simpl in Hrun. unfold bind at 1 in Hrun.
    destruct (step o s) as [s0 [[]| |]] eqn:Hstep; try done.
    pose proof (inv_step _ _ _ _ _ _ Hinv Hstep) as Hinv0.
    replace (history (o :: ops) acc) with (history ops (history [o] acc))
      by (by destruct o).
    by apply (IH _ s0).
Qed.

(** Appends in an execution are appends on the ring. *)
Lemma run_append_all s (rows : list A) rb' :
  append_all rows (ring (self s)) = (rb', Ok tt) ->
  run (map OpAppend rows) s = (set_ring rb' s, Ok tt).
Proof.
  revert s. induction rows as [|x rows IH]; intros s.
  - intros [= <-]. by destruct s as [[] ?].
  - unfold append_all, run in *. simpl. unfold bind at 1 2.
    unfold on_ring at 1, zoom.
    destruct (append x (ring (self s))) as [rb1 [[]| |]]; try done.
    intros Hall. rewrite (IH (set_ring rb1 s) Hall). done.
Qed.

(** The ingest side of an execution, with room in the buffer. *)
Lemma run_appends C hist s (rows : list A) :
  0 < C -> tracks C hist (ring (self s)) ->
  exists rb',
    run (map OpAppend rows) s = (set_ring rb' s, Ok tt) /\
    tracks C (hist ++ rows) rb'.
Proof.
  intros HC. revert hist s. induction rows as [|x rows IH]; intros hist s Ht.
  - exists (ring (self s)). rewrite app_nil_r. split; [|done].
    by destruct s as [[] ?].
  - destruct (append_ok (ring (self s)) x (tracks_wf _ _ _ Ht HC))
      as (rb1 & Happ & _).
    destruct (tracks_append _ _ _ _ _ Ht Happ) as [Ht1 _].
    destruct (IH (hist ++ [x]) (set_ring rb1 s) Ht1) as (rb' & Hrun & Ht').
    exists rb'. split; [|by rewrite <- app_assoc in Ht'].
    unfold run in *. simpl. unfold bind at 1.
    unfold on_ring at 1, zoom. rewrite Happ. by rewrite Hrun.
Qed.
End Executions.

(* ================================================================== *)
(** ** The ring buffer: linearized view, idempotence, the full flag *)
(* ================================================================== *)

Section RingClaims.
Context {A : Type}.

(** C3.  For a buffer of capacity [C] built on any uninitialised storage
    and any sequence [xs] of [n] appended rows (a capacity of zero admits
    no append, so there the sequence is empty): every append returns; if
    [n <= C] the linearized view is exactly [xs], in append order; if
    [n > C] it is exactly the last [C] rows of [xs], oldest first, read as
    the segment from [write_idx] to the end followed by the segment before
    [write_idx]. *)
Theorem linear_view_after_appends (uninit xs : list A) :
  0 < length uninit \/ xs = [] ->
  exists rb,
    append_all xs (RingBuffer_init uninit) = (rb, Ok tt) /\
    (length xs <= length uninit -> linear_view rb = (rb, Ok xs)) /\
    (length uninit < length xs ->
       linear_view rb = (rb, Ok (drop (length xs - length uninit) xs)) /\
       length (drop (length xs - length uninit) xs) = length uninit /\
       drop (length xs - length uninit) xs
         = drop (write_idx rb) (buffer rb) ++ take (write_idx rb) (buffer rb)).
Proof.
  intros [HC | ->].
  - destruct (append_all_tracks _ [] _ xs HC (tracks_init uninit))
      as (rb & Hrun & Ht).
    exists rb. split; [done|]. rewrite linear_view_run.
    destruct Ht as (_ & _ & _ & Hv & Hnf & _). simpl in *.
    split.
    + intros Hle. rewrite Hv. replace (length xs - length uninit) with 0 by lia.
      by rewrite drop_0.
    + intros Hlt. rewrite Hv. split; [done|].
      split; [rewrite length_drop; lia|].
      rewrite <- Hv. unfold view.
      destruct (full rb); [done|]. destruct (Hnf eq_refl); lia.
  - exists (RingBuffer_init uninit). split; [done|].
    split; [done|]. simpl. lia.
Qed.

(** C9.  Two calls of [linear_view] with no append in between return the
    same sequence, and neither changes [write_idx], [full] or the stored
    rows: the buffer after each call is the buffer before it. *)
Theorem linear_view_idempotent (rb : RingBuffer A) :
  let '(rb1, r1) := linear_view rb in
  let '(rb2, r2) := linear_view rb1 in
  r1 = r2 /\ rb1 = rb /\ rb2 = rb /\ exists v, r1 = Ok v.
Proof. rewrite linear_view_run, linear_view_run. eauto. Qed.

(** Any operation of the recorder on a well-formed ring: the ring stays
    well formed, [full] stays set, the view does not get shorter. *)
Lemma step_ring (o : op A) (s : State A) :
  ring_wf (ring (self s)) ->
  let s' := (step o s).1 in
  ring_wf (ring (self s')) /\
  size (ring (self s')) = size (ring (self s)) /\
  (full (ring (self s)) = true -> full (ring (self s')) = true) /\
  length (view (ring (self s))) <= length (view (ring (self s'))).
Proof.
  intros Hwf. destruct o as [row| | |]; simpl.
  - destruct (append_ok _ row Hwf) as (rb' & Happ & Hwf').
    destruct (view_append _ _ _ Hwf Happ) as (_ & Hf & Hw & Hs).
    unfold on_ring, zoom. rewrite Happ. simpl.
    split; [done|]. split; [done|].
    rewrite (length_view _ Hwf), (length_view _ Hwf'), Hf, Hs.
    destruct Hwf as [_ Hlt]. destruct Hwf' as [_ Hlt']. rewrite Hs in Hlt'.
    destruct (full (ring (self s))); destruct (decide _);
      (split; [done || congruence | lia]).
  - unfold bind. rewrite on_ring_view. simpl. done.
  - destruct (flush_tick s) as [s' r] eqn:E.
    destruct (flush_tick_any _ _ _ E) as (Hr & _). simpl. by rewrite Hr.
  - destruct (shutdown s) as [s' r] eqn:E.
    destruct (shutdown_any _ _ _ E) as (Hr & _). simpl. by rewrite Hr.
Qed.

(** C10.  For a recorder of capacity [C >= 1] and any operations applied
    one after the other (append, view, flush tick, shutdown), whatever
    their outcomes: once [full] is true it stays true, the length of the
    linearized view never decreases, it is at most [C], and it is [C]
    from the first wrap on. *)
Theorem full_is_sticky (uninit : list A) (w : World A) (ops1 ops2 : list (op A)) :
  1 <= length uninit ->
  let s1 := apply_ops ops1 (init uninit w) in
  let s2 := apply_ops ops2 s1 in
  (full (ring (self s1)) = true -> full (ring (self s2)) = true) /\
  length (view (ring (self s1))) <= length (view (ring (self s2))) /\
  length (view (ring (self s2))) <= length uninit /\
  (full (ring (self s1)) = true ->
     length (view (ring (self s2))) = length uninit).
Proof.
  intros HC.
  assert (Hgen : forall (ops : list (op A)) (s : State A),
             ring_wf (ring (self s)) ->
             ring_wf (ring (self (apply_ops ops s))) /\
             size (ring (self (apply_ops ops s))) = size (ring (self s)) /\
             (full (ring (self s)) = true ->
                full (ring (self (apply_ops ops s))) = true) /\
             length (view (ring (self s)))
               <= length (view (ring (self (apply_ops ops s))))).
  { induction ops as [|o ops IH]; intros s Hwf; simpl; [done|].
    destruct (step_ring o s Hwf) as (Hwf1 & Hs1 & Hf1 & Hl1).
    destruct (IH _ Hwf1) as (Hwf2 & Hs2 & Hf2 & Hl2).
    split; [done|]. split; [congruence|]. split; [auto | lia]. }
  intros s1 s2.
  destruct (Hgen ops1 (init uninit w)) as (Hwf1 & Hs1 & _);
    [apply ring_wf_init; lia|].
  destruct (Hgen ops2 s1 Hwf1) as (Hwf2 & Hs2 & Hf2 & Hl2).
  fold s1 in Hs1. fold s2 in Hs2, Hwf2, Hf2, Hl2. simpl in Hs1.
  pose proof (length_view _ Hwf2) as Hlen.
  destruct Hwf2 as [_ Hlt].
  repeat split; try done.
  - rewrite Hlen. destruct (full (ring (self s2))); lia.
  - intros Hfull. rewrite Hlen, (Hf2 Hfull). congruence.
Qed.
End RingClaims.

(* ================================================================== *)
(** ** The flush tick: slice, cursor, bucket rollover, failed writes *)
(* ================================================================== *)

Section FlushClaims.
Context {A : Type}.
Implicit Types (s : State A) (ops : list (op A)).

Lemma written_rollover (m : MarketRecorder A) dir path :
  written (Makedirs dir :: rollover_events m path) = [].
Proof.
  unfold rollover_events. destruct (parquet_writer m); [|done].
  by destruct (bool_decide _).
Qed.

(** C2.  On a flush tick, with [N] the length of the linearized view and
    [c] the cursor [last_flush_idx]: if [N <= c] the tick changes nothing,
    neither the recorder nor the files; otherwise the cursor becomes [N],
    and when no file-system call fails the tick hands exactly one table to
    a writer, the slice [view[c:N]], after events that write no row. *)
Theorem flush_tick_slice s :
  let data := view (ring (self s)) in
  let N := length data in
  let c := last_flush_idx (self s) in
  on_ring linear_view s = (s, Ok data) /\
  (N <= c -> flush_tick s = (s, Ok tt)) /\
  (c < N ->
     (forall s' r, flush_tick s = (s', r) -> last_flush_idx (self s') = N) /\
     (faults (env s) = [] -> writer_wf (self s) ->
        exists s' path pre,
          flush_tick s = (s', Ok tt) /\
          last_flush_idx (self s') = N /\
          ring (self s') = ring (self s) /\
          log (env s') = log (env s) ++ pre ++ [WriterWrite path (slice c N data)] /\
          written pre = [])).
Proof.
  intros data N c. split; [apply on_ring_view|].
  split; [apply flush_tick_noop|].
  intros Hlt. split.
  - intros s' r Htick. destruct (flush_tick_any _ _ _ Htick) as (_ & Hc & _).
    rewrite Hc. fold data N c. lia.
  - intros Hf Hwf. pose proof (flush_tick_ok s Hlt Hf Hwf) as Hok. simpl in Hok.
    eexists _, _, (Makedirs _ :: rollover_events (self s) _).
    split; [exact Hok|]. simpl.
    split; [done|]. split; [done|].
    split; [|apply written_rollover].
    unfold N, data, c. rewrite slice_all. reflexivity.
Qed.

(** C6.  On a flush tick that has rows to write and meets no file-system
    failure, the target file is the bucket path of the tick's two clock
    readings.  With no writer yet, a writer is opened on the target; with
    a writer open on another file, that writer is closed, once, and then a
    writer is opened on the target; with a writer open on the target,
    nothing is closed or opened.  In each case the whole delta goes, in
    one write, to the target and to no other file, and the recorder
    keeps the target's open writer. *)
Theorem flush_tick_rollover s :
  last_flush_idx (self s) < length (view (ring (self s))) ->
  faults (env s) = [] ->
  writer_wf (self s) ->
  let w := env s in
  let d1 := wall_clock w (wall_reads w) in
  let d2 := wall_clock w (S (wall_reads w)) in
  let target := bucket_path d1 d2 in
  let delta := pending (self s) in
  exists s',
    flush_tick s = (s', Ok tt) /\
    parquet_writer (self s') = Some (mkWriter target true) /\
    current_file_path (self s') = Some target /\
    match parquet_writer (self s) with
    | None =>
        log (env s') = log w ++ [Makedirs (bucket_dir d1); WriterOpen target;
                                 WriterWrite target delta]
    | Some wr =>
        if decide (wpath wr = target)
        then log (env s') = log w ++ [Makedirs (bucket_dir d1);
                                      WriterWrite target delta]
        else log (env s') = log w ++ [Makedirs (bucket_dir d1);
                                      WriterClose (wpath wr); WriterOpen target;
                                      WriterWrite target delta]
    end.
Proof.
  intros Hlt Hf Hwf w d1 d2 target delta.
  pose proof (flush_tick_ok s Hlt Hf Hwf) as Hok. simpl in Hok.
  eexists. split; [exact Hok|]. simpl.
  split; [done|]. split; [done|].
  unfold rollover_events, writer_wf in *.
  destruct (parquet_writer (self s)) as [wr|]; [|done].
  destruct Hwf as [_ Hcfp]. rewrite Hcfp.
  fold w d1 d2 target.
  destruct (decide (wpath wr = target)) as [Heq|Hne].
  - rewrite bool_decide_eq_true_2 by congruence. done.
  - rewrite bool_decide_eq_false_2 by congruence. done.
Qed.

End FlushClaims.

(* ================================================================== *)
(** ** Executions: no loss before the first wrap, shutdown *)
(* ================================================================== *)

Section ExecutionClaims.
Context {A : Type}.
Implicit Types (s : State A) (ops : list (op A)).

Lemma appended_tick ops :
  history (ops ++ [OpTick]) ([], []) = (appended ops, @nil A).
Proof. by rewrite history_app. Qed.

(** The rows of a final flush are the rows beyond the cursor. *)
Lemma written_shutdown_events (m : MarketRecorder A) d :
  written (shutdown_events m d) = pending m.
Proof.
  unfold shutdown_events. rewrite written_app.
  replace (written match parquet_writer m with
                   | Some wr => if is_open wr then [WriterClose (wpath wr)] else []
                   | None => []
                   end) with (@nil A)
    by (by destruct (parquet_writer m) as [[? []]|]).
  rewrite app_nil_r. destruct (decide _) as [|Hge].
  - unfold written. simpl. by rewrite app_nil_r.
  - unfold pending, written. simpl. symmetry. apply drop_ge. lia.
Qed.

Lemma final_path_not_bucket (d d1 d2 : datetime) :
  final_path d <> bucket_path d1 d2.
Proof. unfold final_path, bucket_path, bucket_dir, path_join. simpl. discriminate. Qed.

(** C1, as the code has it.  After any execution that ends with a flush
    tick, if the rows appended since the recorder was built, those of the
    window included, are at most [C] (the buffer has not yet overwritten a
    row), then the appends of the window all return, the rows beyond the
    cursor at the next tick are exactly the rows of the window, in order,
    and that tick, when no file-system call fails, hands exactly them to
    a writer: each row of the window once, none skipped. *)
Theorem no_loss_before_wrap (uninit : list A) (w0 : World A) ops (ws : list A) s1 :
  run (ops ++ [OpTick]) (init uninit w0) = (s1, Ok tt) ->
  length (appended ops) + length ws <= length uninit ->
  faults (env s1) = [] ->
  exists sm s2,
    run (map OpAppend ws) s1 = (sm, Ok tt) /\
    pending (self sm) = ws /\
    flush_tick sm = (s2, Ok tt) /\
    run (map OpAppend ws ++ [OpTick]) s1 = (s2, Ok tt) /\
    written (log (env s2)) = written (log (env s1)) ++ ws.
Proof.
  intros Hrun Hle Hf.
  pose proof (inv_run _ _ _ _ _ _ (inv_init uninit w0) Hrun) as Hinv.
  rewrite appended_tick in Hinv.
  destruct Hinv as (Ht & Hwf & _ & Hc & _). simpl in *.
  set (xs := appended ops) in *.
  assert (Hcx : last_flush_idx (self s1) = length xs) by lia.
  assert (Htick : forall sm s2, flush_tick sm = (s2, Ok tt) ->
            run (map OpAppend ws) s1 = (sm, Ok tt) ->
            run (map OpAppend ws ++ [OpTick]) s1 = (s2, Ok tt)).
  { intros sm s2 Hft Hra. rewrite (run_app _ _ _ _ Hra).
    unfold run. simpl. unfold bind. by rewrite Hft. }
  destruct ws as [|x ws'].
  - assert (Hp : pending (self s1) = []).
    { unfold pending. apply drop_ge.
      rewrite (tracks_length_view _ _ _ Ht). lia. }
    assert (Hnoop : flush_tick s1 = (s1, Ok tt)).
    { apply flush_tick_noop. rewrite (tracks_length_view _ _ _ Ht). lia. }
    exists s1, s1. rewrite app_nil_r. repeat split; try done.
    by apply (Htick s1 s1).
  - assert (HC : 0 < length uninit) by (simpl in Hle; lia).
    destruct (run_appends _ _ s1 (x :: ws') HC Ht) as (rb' & Hra & Ht').
    set (sm := set_ring rb' s1) in *.
    assert (Hv : view rb' = xs ++ x :: ws').
    { destruct Ht' as (_ & _ & _ & Hv & _). rewrite Hv, length_app.
      replace (length xs + length (x :: ws') - length uninit) with 0 by lia.
      apply drop_0. }
    assert (Hp : pending (self sm) = x :: ws').
    { unfold pending, sm. simpl. rewrite Hv, Hcx. by rewrite drop_app_length. }
    assert (Hlt : last_flush_idx (self sm) < length (view (ring (self sm)))).
    { unfold sm. simpl. rewrite Hv, Hcx, length_app. simpl. lia. }
    pose proof (flush_tick_ok sm Hlt Hf Hwf) as Hok. simpl in Hok.
    destruct (flush_tick_any _ _ _ Hok) as (_ & _ & Hw & _).
    eexists sm, _. split; [done|]. split; [done|]. split; [exact Hok|].
    split; [by apply (Htick sm)|].
    rewrite (Hw eq_refl), Hp. done.
Qed.

(** C4, as the code has it.  Wherever the cancellation falls in an
    execution that has not raised, and when no file-system call of the
    shutdown fails: [run] ends by raising [CancelledError]; before that
    the final flush writes the rows of the linearized view beyond the
    cursor, if there are any, in one table, to the file [final_path],
    which is no bucket file, and then the open writer, if there is one, is
    closed.  The rows written were all appended after the last flush tick,
    so none repeats a row a regular flush wrote.  If at most [C] rows were
    appended in all, they are exactly the rows appended after the last
    tick, and regular flushes and final flush together have handed every
    appended row to a writer, once, in order. *)
Theorem final_flush_writes_pending (uninit : list A) (w0 : World A) ops s :
  run ops (init uninit w0) = (s, Ok tt) ->
  faults (env s) = [] ->
  let d := wall_clock (env s) (wall_reads (env s)) in
  exists s',
    run (ops ++ [OpCancel]) (init uninit w0) = (s', Raise CancelledError) /\
    log (env s')
      = log (env s)
        ++ (if decide (last_flush_idx (self s) < length (view (ring (self s))))
            then [WriteTable (final_path d) (pending (self s))] else [])
        ++ (match parquet_writer (self s) with
            | Some wr => [WriterClose (wpath wr)]
            | None => []
            end) /\
    (forall d1 d2, final_path d <> bucket_path d1 d2) /\
    match parquet_writer (self s') with
    | Some wr => is_open wr = false
    | None => parquet_writer (self s) = None
    end /\
    (exists older, since_last_tick ops = older ++ pending (self s)) /\
    (length (appended ops) <= length uninit ->
       pending (self s) = since_last_tick ops /\
       written (log (env s')) = written (log w0) ++ appended ops).
Proof.
  intros Hrun Hf d.
  pose proof (inv_run _ _ _ _ _ _ (inv_init uninit w0) Hrun) as Hinv.
  destruct Hinv as (Ht & Hwf & [older Hold] & Hc & Hw).
  fold (appended ops) in Ht, Hold, Hc, Hw.
  fold (since_last_tick ops) in Hold, Hc.
  set (xs := appended ops) in *. set (ys := since_last_tick ops) in *.
  set (C := length uninit) in *.
  destruct (shutdown_ok s Hf) as (s' & Hsd & Hlog & _ & _ & Hcl).
  assert (Hpend : pending (self s)
                  = drop (last_flush_idx (self s) + (length xs - C) - length older) ys).
  { unfold pending. destruct Ht as (_ & _ & _ & Hv & _).
    rewrite Hv, drop_drop, Hold, drop_app_ge; rewrite Hold, length_app in Hc.
    - f_equal. rewrite length_app. lia.
    - rewrite length_app. lia. }
  exists s'. split.
  { rewrite (run_app _ _ _ _ Hrun). unfold run. simpl. unfold bind.
    by rewrite Hsd. }
  split.
  { rewrite Hlog. unfold shutdown_events. f_equal. f_equal.
    unfold writer_wf in Hwf. destruct (parquet_writer (self s)) as [wr|]; [|done].
    destruct Hwf as [-> _]. done. }
  split; [intros; apply final_path_not_bucket|].
  split; [done|].
  split.
  { exists (take (last_flush_idx (self s) + (length xs - C) - length older) ys).
    rewrite Hpend. by rewrite take_drop. }
  intros Hle.
  assert (Hpy : pending (self s) = ys).
  { rewrite Hpend. rewrite Hold, length_app in Hc. rewrite Hold, length_app in Hle.
    replace (last_flush_idx (self s) + (length xs - C) - length older) with 0.
    - apply drop_0.
    - rewrite Hold, length_app. lia. }
  split; [done|].
  rewrite Hlog, written_app, (Hw Hle).
  assert (Hcx : last_flush_idx (self s) = length older).
  { rewrite Hc, Hold, length_app. rewrite Hold, length_app in Hle. lia. }
  rewrite written_shutdown_events, Hpy, Hcx, <- app_assoc. f_equal.
  rewrite Hold at 1. rewrite take_app_length. done.
Qed.
End ExecutionClaims.

(* ================================================================== *)
(** ** The fields of a record *)
(* ================================================================== *)

Lemma length_str_take (n : nat) : forall s, String.length (str_take n s) <= n.
Proof.
  induction n as [|n IH]; intros [|a s]; simpl; try lia.
  specialize (IH s). lia.
Qed.

Lemma str_take_all (n : nat) : forall s, String.length s <= n -> str_take n s = s.
Proof.
  induction n as [|n IH]; intros [|a s]; simpl; intros Hlen; try done; [lia|].
  rewrite IH; [done | lia].
Qed.

Lemma length_rstrip_nul (s : string) : String.length (rstrip_nul s) <= String.length s.
Proof.
  induction s as [|a s IH]; simpl; [done|].
  destruct (rstrip_nul s); [destruct (Ascii.eqb a zero)|]; simpl in *; lia.
Qed.

(** A field ["U<n>"] gives back at most [n] characters. *)
Lemma cast_U_length (n : nat) (s : string) : String.length (cast_U n s) <= n.
Proof.
  unfold cast_U. pose proof (length_rstrip_nul (str_take n s)).
  pose proof (length_str_take n s). lia.
Qed.

(** It gives back a str of at most [n] characters that does not end in a
    NUL character as it was. *)
Lemma cast_U_keeps (n : nat) (s : string) :
  String.length s <= n -> rstrip_nul s = s -> cast_U n s = s.
Proof. intros Hlen Hs. unfold cast_U. by rewrite str_take_all. Qed.

(* ================================================================== *)
(** ** The ingest loop *)
(* ================================================================== *)

Section IngestClaims.
Context {Price : Type}.
Variable float_of_int : Z -> option Price.
Variable half_written : Row Price -> Tuple Price -> Row Price.
Variable process_data : list byte -> option (Update Price).
Implicit Types (s : State (Row Price)) (update : Update Price).


(** A cast that does not raise keeps the timestamp. *)
Lemma cast_ts (t : Tuple Price) row :
  cast float_of_int t = inr row -> ts row = tuple_ts t.
Proof.
  unfold cast, cast_int.
  destruct (int_fits 64 _); [|done].
  destruct (cast_float64 _ _); [done|].
  destruct (int_fits 32 _); [|done].
  by intros [= <-].
Qed.

(** On a ring with a slot, the append of a tuple that casts is the append
    of the record. *)
Lemma append_tuple_cast (t : Tuple Price) row (rb : RingBuffer (Row Price)) :
  ring_wf rb -> cast float_of_int t = inr row ->
  append_tuple float_of_int half_written t rb = append row rb.
Proof.
  intros [Hlen Hidx] Hcast. unfold append_tuple.
  destruct (buffer rb !! write_idx rb) as [old|] eqn:Hslot.
  - by rewrite Hcast.
  - apply lookup_ge_None in Hslot. lia.
Qed.

(** The [for] loop over the levels is the append of the records their
    tuples cast to. *)
Lemma for_each_append_level update : forall (levels : list (Level Price)) rows s,
  ring_wf (ring (self s)) ->
  casts_to float_of_int
    (tuples_of_levels (ns_clock (env s)) (ns_reads (env s)) update levels) rows ->
  exists rb',
    append_all rows (ring (self s)) = (rb', Ok tt) /\
    ring_wf rb' /\
    for_each (append_level float_of_int half_written update) levels s
      = (ingested rb' (length levels) s, Ok tt).
Proof.
  induction levels as [|level levels IH]; intros rows s Hwf Hcasts.
  - apply Forall2_nil_inv_l in Hcasts as ->.
    exists (ring (self s)). split; [done|]. split; [done|].
    unfold ingested. simpl. destruct s as [[] []]; simpl.
    by rewrite Nat.add_0_r.
  - unfold casts_to, tuples_of_levels in Hcasts. simpl in Hcasts.
    apply Forall2_cons_inv_l in Hcasts as (row & rows' & Hrow & Hrest & ->).
    rewrite Nat.add_0_r in Hrow.
    destruct (append_ok (ring (self s)) row Hwf) as (rb1 & Happ & Hwf1).
    set (s1 := ingested rb1 1 s).
    destruct (IH rows' s1 Hwf1) as (rb' & Hall & Hwf' & Hfor).
    { unfold casts_to, tuples_of_levels. simpl.
      erewrite imap_ext; [exact Hrest|].
      intros i x _. simpl. do 2 f_equal. lia. }
    exists rb'. split; [|split; [done|]].
    + unfold append_all in *. simpl. unfold bind at 1. by rewrite Happ.
    + simpl. unfold bind at 1. unfold append_level at 1.
      unfold bind at 1, time_ns at 1. unfold on_ring at 1, zoom. simpl.
      rewrite (append_tuple_cast _ row _ Hwf Hrow), Happ.
      replace (set_ring rb1 _) with s1
        by (unfold s1, ingested, set_ring; simpl; do 3 f_equal; lia).
      rewrite Hfor. unfold s1, ingested. simpl. do 3 f_equal. lia.
Qed.



(** C8.  For a payload the feed parses to an update whose type is
    neither Bid nor Ask, one turn of the ingest loop appends nothing and
    raises nothing: the loop goes on with the rest of the payload in the
    very same state, and with no rest the payload is done, the state
    unchanged. *)
Theorem ingest_skips_other_kinds (fuel : nat) (raw : list byte) update s :
  raw <> [] ->
  process_data raw = Some update ->
  update_type update <> "Bid"%string ->
  update_type update <> "Ask"%string ->
  drain float_of_int half_written process_data (S fuel) (Some raw) s
    = drain float_of_int half_written process_data fuel (remaining_data update) s /\
  (truthy (remaining_data update) = false ->
     on_message float_of_int half_written process_data (S fuel) raw s = (s, Ok tt)).
Proof.
  intros Hraw Hparse Hbid Hask.
  assert (Hstep : drain float_of_int half_written process_data (S fuel) (Some raw) s
                  = drain float_of_int half_written process_data fuel
                          (remaining_data update) s).
  { destruct raw as [|b raw]; [done|]. simpl. rewrite Hparse.
    unfold is_bid_or_ask.
    by rewrite (bool_decide_eq_false_2 _ Hbid), (bool_decide_eq_false_2 _ Hask). }
  split; [done|].
  intros Hrest. unfold on_message. rewrite Hstep.
  destruct fuel; simpl; by rewrite Hrest.
Qed.
End IngestClaims.

(* ================================================================== *)
(** ** The claims on concrete executions *)
(* ================================================================== *)

(** Capacity 3, rows 1 to 4 appended: the view is [2; 3; 4]. *)
Lemma linear_view_after_appends_demo :
  exists rb,
    append_all [1; 2; 3; 4] (RingBuffer_init [0; 0; 0]) = (rb, Ok tt) /\
    linear_view rb = (rb, Ok [2; 3; 4]).
Proof.
  destruct (linear_view_after_appends [0; 0; 0] [1; 2; 3; 4]) as (rb & Hrun & _ & Hwrap).
  - left. simpl. lia.
  - exists rb. split; [exact Hrun|]. apply Hwrap. simpl. lia.
Defined.

(** A full buffer stays full through a tick, an append, a cancellation and
    a reading of the view, and its view keeps length 3. *)
Lemma full_is_sticky_demo :
  full (ring (self (apply_ops [OpAppend 1; OpAppend 2; OpAppend 3] demo_init))) = true /\
  length (view (ring (self (apply_ops [OpTick; OpAppend 4; OpCancel; OpView]
                             (apply_ops [OpAppend 1; OpAppend 2; OpAppend 3] demo_init)))))
    = 3.
Proof.
  split; [reflexivity|].
  destruct (full_is_sticky [0; 0; 0] demo_world
              [OpAppend 1; OpAppend 2; OpAppend 3]
              [OpTick; OpAppend 4; OpCancel; OpView]) as (_ & _ & _ & Hfull).
  - simpl. lia.
  - apply Hfull. reflexivity.
Defined.

(** With cursor 2 and view [1; 2; 3], the tick writes [3], not the view. *)
Lemma flush_tick_slice_demo :
  exists s' path pre,
    flush_tick demo_one_pending = (s', Ok tt) /\
    last_flush_idx (self s') = 3 /\
    log (env s') = log (env demo_one_pending) ++ pre ++ [WriterWrite path [3]].
Proof.
  destruct (flush_tick_slice demo_one_pending) as (_ & _ & Hnew).
  destruct Hnew as [_ Hok]; [vm_compute; lia|].
  destruct Hok as (s' & path & pre & Htick & Hc & _ & Hlog & _);
    [reflexivity | vm_compute; split; reflexivity |].
  exists s', path, pre. split; [exact Htick|]. split; [exact Hc | exact Hlog].
Defined.

(** A tick at 09:18 with the writer of 09:16 open: close, open, write. *)
Lemma flush_tick_rollover_demo :
  exists s',
    flush_tick demo_before_rollover = (s', Ok tt) /\
    log (env s')
      = log (env demo_before_rollover)
        ++ [Makedirs "market_data/NIFTY_FUT/2026-11-03";
            WriterClose "market_data/NIFTY_FUT/2026-11-03/09_16.parquet";
            WriterOpen "market_data/NIFTY_FUT/2026-11-03/09_18.parquet";
            WriterWrite "market_data/NIFTY_FUT/2026-11-03/09_18.parquet" [2]].
Proof.
  destruct (flush_tick_rollover demo_before_rollover) as (s' & Htick & _ & _ & Hlog).
  - vm_compute. lia.
  - reflexivity.
  - vm_compute. split; reflexivity.
  - exists s'. split; [exact Htick | exact Hlog].
Defined.



(** C1 fails on the code: capacity 3, rows 1 and 2 flushed, then a window
    of two rows, 3 and 4; the second tick writes row 4 only. *)
Lemma wrapped_window_loses_row :
  (run ([OpAppend 1; OpAppend 2] ++ [OpTick]) demo_init).2 = Ok tt /\
  length [3; 4] <= length [0; 0; 0] /\
  (run (map OpAppend [3; 4] ++ [OpTick])
       (run ([OpAppend 1; OpAppend 2] ++ [OpTick]) demo_init).1).2 = Ok tt /\
  written (log (env (run (map OpAppend [3; 4] ++ [OpTick])
                         (run ([OpAppend 1; OpAppend 2] ++ [OpTick]) demo_init).1).1))
    = written (log (env (run ([OpAppend 1; OpAppend 2] ++ [OpTick]) demo_init).1)) ++ [4] /\
  written (log (env (run (map OpAppend [3; 4] ++ [OpTick])
                         (run ([OpAppend 1; OpAppend 2] ++ [OpTick]) demo_init).1).1))
    <> written (log (env (run ([OpAppend 1; OpAppend 2] ++ [OpTick]) demo_init).1)) ++ [3; 4].
Proof. vm_compute. repeat split; try lia. discriminate. Qed.

(** Capacity 3, row 1 flushed, a window of rows 2 and 3: the tick writes both. *)
Lemma no_loss_before_wrap_demo :
  exists sm s2,
    run (map OpAppend [2; 3]) (run ([OpAppend 1] ++ [OpTick]) demo_init).1 = (sm, Ok tt) /\
    pending (self sm) = [2; 3] /\
    flush_tick sm = (s2, Ok tt) /\
    run (map OpAppend [2; 3] ++ [OpTick]) (run ([OpAppend 1] ++ [OpTick]) demo_init).1
      = (s2, Ok tt) /\
    written (log (env s2))
      = written (log (env (run ([OpAppend 1] ++ [OpTick]) demo_init).1)) ++ [2; 3].
Proof.
  apply (no_loss_before_wrap [0; 0; 0] demo_world [OpAppend 1] [2; 3]).
  - vm_compute. reflexivity.
  - vm_compute. lia.
  - reflexivity.
Defined.

(** C4 fails on the code: rows 3 and 4 were appended after the last flush
    tick and neither was flushed; the final flush writes row 4 only, and
    row 3 reaches no file. *)
Lemma final_flush_after_wrap_loses_row :
  (run demo_wrapped_ops demo_init).2 = Ok tt /\
  since_last_tick demo_wrapped_ops = [3; 4] /\
  (run (demo_wrapped_ops ++ [OpCancel]) demo_init).2 = Raise CancelledError /\
  log (env (run (demo_wrapped_ops ++ [OpCancel]) demo_init).1)
    = log (env (run demo_wrapped_ops demo_init).1)
      ++ [WriteTable "NIFTY_FUT_20261103_0917_FINAL.parquet" [4];
          WriterClose "market_data/NIFTY_FUT/2026-11-03/09_16.parquet"] /\
  written (log (env (run (demo_wrapped_ops ++ [OpCancel]) demo_init).1)) = [1; 2; 4].
Proof. vm_compute. repeat split. Qed.

(** Row 1 flushed, row 2 appended, then the cancellation: the final file
    holds row 2, the writer of 09:16 is closed, every row was written once. *)
Lemma final_flush_writes_pending_demo :
  exists s',
    run ([OpAppend 1; OpTick; OpAppend 2] ++ [OpCancel]) demo_init
      = (s', Raise CancelledError) /\
    log (env s')
      = log (env demo_before_rollover)
        ++ [WriteTable "NIFTY_FUT_20261103_0917_FINAL.parquet" [2];
            WriterClose "market_data/NIFTY_FUT/2026-11-03/09_16.parquet"] /\
    written (log (env s')) = [1; 2].
Proof.
  destruct (final_flush_writes_pending [0; 0; 0] demo_world
              [OpAppend 1; OpTick; OpAppend 2] demo_before_rollover)
    as (s' & Hrun & Hlog & _ & _ & _ & Hall).
  - vm_compute. reflexivity.
  - reflexivity.
  - exists s'. split; [exact Hrun|]. split; [exact Hlog|].
    destruct Hall as [_ Hw]; [vm_compute; lia | exact Hw].
Defined.



(** The payload of another kind: nothing appended, the state unchanged. *)
Lemma ingest_skips_other_kinds_demo :
  on_message demo_float_of_int demo_half_written demo_process_data 1 [x74]
             demo_ingest_init
    = (demo_ingest_init, Ok tt).
Proof.
  destruct (ingest_skips_other_kinds demo_float_of_int demo_half_written
              demo_process_data 0 [x74]
              (mkUpdate "Ticker" (PyInt 53001) [] None) demo_ingest_init)
    as [_ Hdone].
  - discriminate.
  - reflexivity.
  - discriminate.
  - discriminate.
  - apply Hdone. reflexivity.
Defined.


(* ================================================================== *)
(** ** The cursor in every execution *)
(* ================================================================== *)

Section CursorFacts.
Context {A : Type}.
Implicit Types (s : State A) (rb : RingBuffer A) (ops : list (op A)).

Lemma ring_ok_init (uninit : list A) : ring_ok (RingBuffer_init uninit).
Proof. split; simpl; [done|]. destruct uninit; simpl; [right; done | left; lia]. Qed.

Lemma length_view_ok rb : ring_ok rb -> length (view rb) <= size rb.
Proof.
  intros [Hlen Hw]. unfold view. destruct (full rb).
  - rewrite length_app, length_drop, length_take. lia.
  - rewrite length_take. lia.
Qed.

(** An [append], whatever its outcome. *)
Lemma append_any rb x rb' r :
  ring_ok rb -> append x rb = (rb', r) ->
  ring_ok rb' /\ size rb' = size rb /\
  length (view rb) <= length (view rb').
Proof.
  intros Hok Happ. destruct Hok as [Hlen [Hw | (Hs & Hw & Hf)]].
  - assert (Hwf : ring_wf rb) by done.
    destruct (append_ok rb x Hwf) as (rb1 & Happ1 & Hwf1).
    rewrite Happ1 in Happ. injection Happ as <- <-.
    destruct (view_append _ _ _ Hwf Happ1) as (_ & Hf' & Hw' & Hs').
    destruct Hwf1 as [Hlen1 Hlt1].
    split; [split; [done | by left]|]. split; [done|].
    rewrite (length_view _ Hwf), (length_view rb1) by done.
    rewrite Hf', Hw', Hs'.
    destruct (full rb); destruct (decide _); lia.
  - unfold append in Happ.
    destruct (decide (write_idx rb < length (buffer rb))) as [Hlt|_]; [lia|].
    injection Happ as <- <-. split; [|done]. split; [done|]. right. done.
Qed.

Lemma on_ring_env {X} (m : M (RingBuffer A) X) s s' r :
  on_ring m s = (s', r) -> env s' = env s /\
  last_flush_idx (self s') = last_flush_idx (self s) /\
  parquet_writer (self s') = parquet_writer (self s) /\
  current_file_path (self s') = current_file_path (self s) /\
  m (ring (self s)) = (ring (self s'), r).
Proof.
  unfold on_ring, zoom. destruct (m (ring (self s))) as [rb' r'].
  intros [= <- <-]. done.
Qed.

(** Any operation, whatever its outcome: the ring stays in shape, the
    cursor does not go back and stays within the view. *)
Lemma step_cursor (o : op A) s s' r :
  ring_ok (ring (self s)) ->
  last_flush_idx (self s) <= length (view (ring (self s))) ->
  step o s = (s', r) ->
  ring_ok (ring (self s')) /\
  size (ring (self s')) = size (ring (self s)) /\
  last_flush_idx (self s) <= last_flush_idx (self s') /\
  last_flush_idx (self s') <= length (view (ring (self s'))).
Proof.
  intros Hok Hc Hstep. destruct o as [row| | |]; simpl in Hstep.
  - destruct (on_ring_env _ _ _ _ Hstep) as (_ & Hc' & _ & _ & Happ).
    destruct (append_any _ _ _ _ Hok Happ) as (Hok' & Hs' & Hl').
    rewrite Hc'. repeat split; try apply Hok'; try done; lia.
  - unfold bind in Hstep. rewrite on_ring_view in Hstep.
    injection Hstep as <- <-. done.
  - destruct (flush_tick_any _ _ _ Hstep) as (Hr & Hc' & _).
    rewrite Hr, Hc'. repeat split; try apply Hok; try done; lia.
  - destruct (shutdown_any _ _ _ Hstep) as (Hr & Hc' & _).
    rewrite Hr, Hc'. repeat split; try apply Hok; try done; lia.
Qed.

Lemma apply_ops_cursor ops : forall s,
  ring_ok (ring (self s)) ->
  last_flush_idx (self s) <= length (view (ring (self s))) ->
  ring_ok (ring (self (apply_ops ops s))) /\
  size (ring (self (apply_ops ops s))) = size (ring (self s)) /\
  last_flush_idx (self s) <= last_flush_idx (self (apply_ops ops s)) /\
  last_flush_idx (self (apply_ops ops s))
    <= length (view (ring (self (apply_ops ops s)))).
Proof.
  induction ops as [|o ops IH]; intros s Hok Hc; simpl; [done|].
  destruct (step o s) as [s1 r1] eqn:Hstep. simpl.
  destruct (step_cursor _ _ _ _ Hok Hc Hstep) as (Hok1 & Hs1 & Hm1 & Hc1).
  destruct (IH s1 Hok1 Hc1) as (Hok2 & Hs2 & Hm2 & Hc2).
  split; [done|]. split; [congruence|]. split; [lia | done].
Qed.

(** X1.  In every execution of the recorder, for any capacity and
    whatever the outcomes of its operations, the flush cursor never goes
    back and never points past the end of the linearized view, which is
    never longer than the capacity: the slices [data[last_flush_idx:...]]
    of the flush tick and of the final flush are always in range. *)
Theorem cursor_within_view (uninit : list A) (w : World A) ops1 ops2 :
  let s1 := apply_ops ops1 (init uninit w) in
  let s2 := apply_ops ops2 s1 in
  last_flush_idx (self s1) <= last_flush_idx (self s2) /\
  last_flush_idx (self s2) <= length (view (ring (self s2))) /\
  length (view (ring (self s2))) <= length uninit.
Proof.
  intros s1 s2.
  destruct (apply_ops_cursor ops1 (init uninit w)) as (Hok1 & Hs1 & _ & Hc1);
    [apply ring_ok_init | simpl; lia |].
  destruct (apply_ops_cursor ops2 s1 Hok1 Hc1) as (Hok2 & Hs2 & Hm2 & Hc2).
  fold s1 in Hs1. fold s2 in Hok2, Hs2, Hm2, Hc2. simpl in Hs1.
  split; [done|]. split; [done|].
  pose proof (length_view_ok _ Hok2). lia.
Qed.

(** What a shutdown hands to a writer, whatever its outcome: nothing, or
    the rows beyond the cursor. *)
Lemma shutdown_written s s' r :
  shutdown s = (s', r) ->
  written (log (env s')) = written (log (env s)) \/
  written (log (env s')) = written (log (env s)) ++ pending (self s).
Proof.
  unfold shutdown. unfold bind at 1. rewrite on_ring_view.
  destruct s as [[rg c pw cfp] [lg fl wc wr nc nr]].
  unfold bind at 1, get at 1. unfold pending. simpl.
  destruct (decide _); destruct pw as [[p [|]]|]; exec_m;
    destruct fl as [|[|] [|[|] fl]]; exec_m;
    intros [= <- <-]; simpl;
    rewrite ?written_snoc; simpl; rewrite ?app_nil_r; eauto.
Qed.

(** With the cursor at the capacity, no operation hands a row to a writer. *)
Lemma step_saturated (o : op A) s s' r :
  ring_ok (ring (self s)) ->
  last_flush_idx (self s) = size (ring (self s)) ->
  last_flush_idx (self s) <= length (view (ring (self s))) ->
  step o s = (s', r) ->
  written (log (env s')) = written (log (env s)) /\
  ring_ok (ring (self s')) /\
  last_flush_idx (self s') = size (ring (self s')) /\
  last_flush_idx (self s') <= length (view (ring (self s'))).
Proof.
  intros Hok Hc Hcv Hstep.
  pose proof (length_view_ok _ Hok) as Hv.
  assert (Hp : pending (self s) = []) by (unfold pending; apply drop_ge; lia).
  destruct (step_cursor o s s' r Hok Hcv Hstep) as (Hok' & Hs' & Hm & Hc').
  pose proof (length_view_ok _ Hok') as Hv'.
  split; [|split; [done | split; [lia | done]]].
  destruct o as [row| | |]; simpl in Hstep.
  - destruct (on_ring_env _ _ _ _ Hstep) as (-> & _). done.
  - unfold bind in Hstep. rewrite on_ring_view in Hstep. by injection Hstep as <- <-.
  - destruct (flush_tick_any _ _ _ Hstep) as (_ & _ & Hw & Hbad & _).
    destruct r as [[]|e|].
    + rewrite (Hw eq_refl), Hp. apply app_nil_r.
    + by destruct Hbad as [-> _].
    + by destruct Hbad as [-> _].
  - destruct (shutdown_written _ _ _ Hstep) as [-> | ->]; [done|].
    rewrite Hp. apply app_nil_r.
Qed.

(** X2.  Once the buffer is full, the next flush tick puts the cursor at
    the capacity, whatever the tick's outcome, and from then on no
    operation ever hands a row to a writer again: every later flush tick
    finds nothing beyond the cursor, and so does the final flush, however
    many rows are appended. *)
Theorem no_write_after_full_tick (uninit : list A) (w : World A) ops1 ops2 :
  full (ring (self (apply_ops ops1 (init uninit w)))) = true ->
  let s2 := (flush_tick (apply_ops ops1 (init uninit w))).1 in
  last_flush_idx (self s2) = length uninit /\
  written (log (env (apply_ops ops2 s2))) = written (log (env s2)).
Proof.
  intros Hfull s2. set (s1 := apply_ops ops1 (init uninit w)) in *.
  destruct (apply_ops_cursor ops1 (init uninit w)) as (Hok1 & Hs1 & _ & Hc1);
    [apply ring_ok_init | simpl; lia |].
  fold s1 in Hok1, Hs1, Hc1. simpl in Hs1.
  destruct (flush_tick s1) as [s2' r2] eqn:Htick. simpl in s2. subst s2.
  destruct (flush_tick_any _ _ _ Htick) as (Hr & Hc & _).
  assert (Hwf : ring_wf (ring (self s1))).
  { destruct Hok1 as [Hl [Hw | (_ & _ & Hf)]]; [done | congruence]. }
  pose proof (length_view _ Hwf) as Hlen. rewrite Hfull in Hlen.
  assert (Hsat : last_flush_idx (self s2') = size (ring (self s2'))).
  { rewrite Hc, Hr, Hlen. lia. }
  split; [rewrite Hsat, Hr; done|].
  assert (Hok2 : ring_ok (ring (self s2'))) by (by rewrite Hr).
  assert (Hcv : last_flush_idx (self s2') <= length (view (ring (self s2'))))
    by (rewrite Hc, Hr, Hlen; lia).
  clear - Hsat Hok2 Hcv. revert s2' Hsat Hok2 Hcv.
  induction ops2 as [|o ops2 IH]; intros s Hsat Hok Hcv; simpl; [done|].
  destruct (step o s) as [s' r] eqn:Hstep. simpl.
  destruct (step_saturated _ _ _ _ Hok Hsat Hcv Hstep) as (Hw & Hok' & Hsat' & Hcv').
  rewrite (IH s' Hsat' Hok' Hcv'). done.
Qed.

(** X4.  A flush tick that has returned has caught up: flush ticks that
    follow it with no append in between, as many as the timer fires,
    change nothing at all, neither the recorder nor the files. *)
Theorem parquet_flush_idempotent s s' (n : nat) :
  flush_tick s = (s', Ok tt) ->
  parquet_flush n s' = (s', Ok tt).
Proof.
  intros Htick. destruct (flush_tick_any _ _ _ Htick) as (Hr & Hc & _).
  assert (Hnoop : flush_tick s' = (s', Ok tt)).
  { apply flush_tick_noop. rewrite Hr, Hc. lia. }
  induction n as [|n IH]; simpl; [done|].
  unfold bind. by rewrite Hnoop.
Qed.
End CursorFacts.

(* ================================================================== *)
(** ** What reaches the files is a subsequence of what was appended *)
(* ================================================================== *)

Section HandedFacts.
Context {A : Type}.
Implicit Types (s : State A) (ops : list (op A)) (xs ws : list A).








End HandedFacts.

(* ================================================================== *)
(** ** The long-lived writer is used as one writer *)
(* ================================================================== *)

Section WriterProtocol.
Context {A : Type}.
Implicit Types (s : State A) (ops : list (op A)).

Lemma writer_protocol_app (l1 l2 : list (io_event A)) : forall cur,
  writer_protocol cur (l1 ++ l2)
  = match writer_protocol cur l1 with
    | Some c => writer_protocol c l2
    | None => None
    end.
Proof.
  induction l1 as [|ev l1 IH]; intros cur; simpl; [done|].
  destruct ev; simpl; try apply IH.
  - destruct cur; [done | apply IH].
  - destruct (bool_decide _); [apply IH | done].
  - destruct (bool_decide _); [apply IH | done].
Qed.

(** The events of a flush tick, whatever its outcome, continue the
    protocol from the recorder's writer; a tick never raises
    [CancelledError]. *)
Lemma flush_tick_events s s' r :
  writer_wf (self s) -> flush_tick s = (s', r) ->
  r <> Raise CancelledError /\
  exists evs c',
    log (env s') = log (env s) ++ evs /\
    writer_protocol (wpath <$> parquet_writer (self s)) evs = Some c' /\
    (r = Ok tt ->
       c' = wpath <$> parquet_writer (self s') /\ writer_wf (self s')).
Proof.
  intros Hwf. unfold flush_tick. unfold bind at 1. rewrite on_ring_view.
  destruct s as [[rg c pw cfp] [lg fl wc wr nc nr]].
  unfold bind at 1, get at 1. unfold writer_wf in *. simpl in *.
  destruct (decide _) as [Hle|Hlt].
  { intros [= <- <-]. split; [done|]. exists [], (wpath <$> pw).
    rewrite app_nil_r. done. }
  generalize (slice c (length (view rg)) (view rg)). intros rows.
  destruct pw as [[p o]|]; simpl in *.
  - destruct Hwf as [-> ->]. exec_m.
    destruct fl as [|[|] [|[|] [|[|] [|[|] fl]]]]; exec_m;
      repeat (match goal with
              | |- context [bool_decide ?P] =>
                  let E := fresh "E" in
                  destruct (bool_decide P) eqn:E; exec_m;
                  [apply bool_decide_eq_true in E; injection E as E; subst p|]
              end);
      intros [= <- <-]; simpl; (split; [done|]);
      rewrite <- ?app_assoc; simpl;
      first [ eexists _, _; split; [reflexivity|]
            | exists []; eexists; split; [by rewrite app_nil_r|] ];
      repeat (cbn [writer_protocol]; rewrite ?bool_decide_eq_true_2 by reflexivity);
      (split; [reflexivity|]); intros; try done.
  - exec_m.
    destruct fl as [|[|] [|[|] [|[|] [|[|] fl]]]]; exec_m;
      intros [= <- <-]; simpl; (split; [done|]);
      rewrite <- ?app_assoc; simpl;
      first [ eexists _, _; split; [reflexivity|]
            | exists []; eexists; split; [by rewrite app_nil_r|] ];
      repeat (cbn [writer_protocol]; rewrite ?bool_decide_eq_true_2 by reflexivity);
      (split; [reflexivity|]); intros; try done.
Qed.

(** The events of a shutdown, whatever its outcome, continue the protocol
    from the recorder's writer; one that runs to its [raise] has closed
    the open writer and opened none. *)
Lemma shutdown_follows_protocol s s' r :
  writer_wf (self s) -> shutdown s = (s', r) ->
  exists evs c',
    log (env s') = log (env s) ++ evs /\
    writer_protocol (wpath <$> parquet_writer (self s)) evs = Some c' /\
    (r = Raise CancelledError -> c' = None).
Proof.
  intros Hwf. unfold shutdown. unfold bind at 1. rewrite on_ring_view.
  destruct s as [[rg c pw cfp] [lg fl wc wr nc nr]].
  unfold bind at 1, get at 1. unfold writer_wf in *. simpl in *.
  generalize (drop c (view rg)). intros rows.
  destruct (decide _); destruct pw as [[p o]|]; simpl in *;
    try (destruct Hwf as [-> ->]); exec_m;
    destruct fl as [|[|] [|[|] fl]]; exec_m;
    intros [= <- <-]; simpl;
    rewrite <- ?app_assoc; simpl;
    first [ eexists _, _; split; [reflexivity|]
          | exists []; eexists; split; [by rewrite app_nil_r|] ];
    repeat (cbn [writer_protocol]; rewrite ?bool_decide_eq_true_2 by reflexivity);
    (split; [reflexivity|]); intros; try done.
Qed.

(** Every step, whatever its outcome, continues the protocol. *)
Lemma step_protocol (o : op A) s s' r :
  writer_wf (self s) ->
  writer_protocol None (log (env s)) = Some (wpath <$> parquet_writer (self s)) ->
  step o s = (s', r) ->
  exists c,
    writer_protocol None (log (env s')) = Some c /\
    (r = Ok tt -> writer_wf (self s') /\ c = wpath <$> parquet_writer (self s')) /\
    (r = Raise CancelledError -> c = None).
Proof.
  intros Hwf Hp Hstep. destruct o as [row| | |]; simpl in Hstep.
  - destruct (on_ring_env _ _ _ _ Hstep) as (He & _ & Hpw & Hcfp & Happ).
    exists (wpath <$> parquet_writer (self s)).
    split; [by rewrite He|]. split.
    + intros _. unfold writer_wf in *. rewrite Hpw, Hcfp. done.
    + intros ->. unfold append in Happ.
      destruct (decide _); [destruct (decide _)|]; done.
  - unfold bind in Hstep. rewrite on_ring_view in Hstep.
    injection Hstep as <- <-.
    exists (wpath <$> parquet_writer (self s)). done.
  - destruct (flush_tick_events _ _ _ Hwf Hstep) as (Hnc & evs & c' & Hl & Hpe & Hok).
    exists c'. split; [by rewrite Hl, writer_protocol_app, Hp|].
    split; [|done].
    intros Hr. destruct (Hok Hr) as [-> Hwf']. done.
  - destruct (shutdown_any _ _ _ Hstep) as (_ & _ & e & ->).
    destruct (shutdown_follows_protocol _ _ _ Hwf Hstep) as (evs & c' & Hl & Hpe & Hcan).
    exists c'. split; [by rewrite Hl, writer_protocol_app, Hp|].
    split; [done | exact Hcan].
Qed.

(** X5.  In every execution that starts with no writer open, whatever
    its outcome, an exception of the file system included, the recorder
    uses its long-lived parquet writer as one writer: the log of what it
    did is one where a writer is opened only when none is open, every
    [write_table] goes to the file of the writer open at that moment, and
    only the open writer is closed.  While the execution has not raised,
    the writer open according to the log is the recorder's
    [parquet_writer]; after a shutdown that ran to its end no writer is
    left open. *)
Theorem writer_protocol_respected (uninit : list A) (w0 : World A) ops s r :
  writer_protocol None (log w0) = Some None ->
  run ops (init uninit w0) = (s, r) ->
  exists c,
    writer_protocol None (log (env s)) = Some c /\
    (r = Ok tt -> writer_wf (self s) /\ c = wpath <$> parquet_writer (self s)) /\
    (r = Raise CancelledError -> c = None).
Proof.
  intros H0.
  assert (Hgen : forall (ops : list (op A)) (s0 s : State A) r,
             writer_wf (self s0) ->
             writer_protocol None (log (env s0))
               = Some (wpath <$> parquet_writer (self s0)) ->
             run ops s0 = (s, r) ->
             exists c,
               writer_protocol None (log (env s)) = Some c /\
               (r = Ok tt ->
                  writer_wf (self s) /\ c = wpath <$> parquet_writer (self s)) /\
               (r = Raise CancelledError -> c = None)).
  { clear. induction ops as [|o ops IH]; intros s0 s r Hwf Hp Hrun.
    - injection Hrun as <- <-.
      exists (wpath <$> parquet_writer (self s0)). done.
    - unfold run in Hrun. simpl in Hrun. unfold bind at 1 in Hrun.
      destruct (step o s0) as [s1 r1] eqn:Hstep.
      destruct (step_protocol _ _ _ _ Hwf Hp Hstep) as (c & Hc & Hok & Hcan).
      destruct r1 as [[]|e|].
      + destruct (Hok eq_refl) as [Hwf1 ->]. by apply (IH s1).
      + injection Hrun as <- <-. exists c. split; [done|]. split; [done | exact Hcan].
      + injection Hrun as <- <-. exists c. done. }
  intros Hrun. by apply (Hgen ops (init uninit w0)).
Qed.
End WriterProtocol.


(* ================================================================== *)
(** ** Where the rows sit in the buffer *)
(* ================================================================== *)

Section RingSlots.
Context {A : Type}.
Implicit Types (rb : RingBuffer A) (x : A) (xs hist : list A).

Lemma mod_apart (i n C : nat) : i < n -> n < i + C -> i mod C <> n mod C.
Proof.
  intros Hin HnC Heq.
  pose proof (Nat.div_mod_eq i C) as Hi. pose proof (Nat.div_mod_eq n C) as Hn.
  rewrite Heq in Hi.
  destruct (Nat.le_gt_cases (n / C) (i / C)) as [Hle|Hgt].
  - pose proof (Nat.mul_le_mono_l _ _ C Hle). lia.
  - pose proof (Nat.mul_le_mono_l _ _ C Hgt) as Hm.
    rewrite Nat.mul_succ_r in Hm. lia.
Qed.

Lemma slots_init (uninit : list A) : slots uninit [] (RingBuffer_init uninit).
Proof.
  unfold slots. simpl. split; [done|]. split; [done|].
  split; [by rewrite Nat.Div0.mod_0_l|].
  split; [split; [done | lia]|]. split; [lia | done].
Qed.

Lemma slots_append (uninit : list A) hist rb x rb' :
  slots uninit hist rb -> append x rb = (rb', Ok tt) ->
  slots uninit (hist ++ [x]) rb'.
Proof.
  unfold slots. intros (Hlen & Hsz & Hw & Hf & Hsl & Hun).
  unfold append.
  destruct (decide (write_idx rb < length (buffer rb))) as [Hlt|]; [|done].
  destruct (decide (size rb = 0)) as [|Hs]; [done|].
  intros [= <-]. simpl. rewrite length_app, length_insert. simpl.
  set (C := length uninit) in *. set (n := length hist) in *.
  assert (HC : 0 < C) by lia.
  split; [done|]. split; [done|].
  assert (Hw' : (write_idx rb + 1) mod size rb = (n + 1) mod C).
  { rewrite Hw, Hsz. apply Nat.Div0.add_mod_idemp_l. }
  split; [done|].
  split; [|split].
  - rewrite Hw'. pose proof (Nat.div_mod_eq (n + 1) C) as Hdm.
    destruct (decide ((n + 1) mod C = 0)) as [H0|Hn0].
    + split; [intros _; split; [done|] | done].
      rewrite H0 in Hdm. destruct ((n + 1) / C) as [|q]; [lia|].
      rewrite Nat.mul_succ_r in Hdm. lia.
    + rewrite Hf. split; intros [_ Hle]; (split; [done|]); [lia|].
      destruct (decide (C = n + 1)) as [->|]; [|lia].
      rewrite Nat.Div0.mod_same in Hn0. done.
  - intros i Hi HiC. destruct (decide (i = n)) as [->|Hne].
    + rewrite <- Hw, list_lookup_insert_eq by done.
      by rewrite list_lookup_middle.
    + rewrite list_lookup_insert_ne.
      * rewrite lookup_app_l by lia. apply Hsl; lia.
      * rewrite Hw. intros Heq. apply (mod_apart i n C); [lia | lia | done].
  - intros j Hj. rewrite list_lookup_insert_ne; [apply Hun; lia|].
    rewrite Hw. pose proof (Nat.Div0.mod_le n C). lia.
Qed.

Lemma slots_append_all (uninit : list A) xs : forall hist rb rb',
  slots uninit hist rb -> append_all xs rb = (rb', Ok tt) ->
  slots uninit (hist ++ xs) rb'.
Proof.
  induction xs as [|x xs IH]; intros hist rb rb' Hs Hall.
  - injection Hall as <-. by rewrite app_nil_r.
  - unfold append_all in Hall. simpl in Hall. unfold bind at 1 in Hall.
    destruct (append x rb) as [rb1 [[]| |]] eqn:Happ; try done.
    pose proof (slots_append _ _ _ _ _ Hs Happ) as Hs1.
    replace (hist ++ x :: xs) with ((hist ++ [x]) ++ xs) by (by rewrite <- app_assoc).
    by apply (IH _ rb1).
Qed.

(** X6.  After any appends that have all returned, on a buffer built on
    any storage: [write_idx] is the number of appends modulo the capacity
    and [full] is set exactly when at least a capacity of rows was
    appended; each of the last [C] rows sits in the slot of its index
    modulo [C]; and every slot no append has reached still holds what the
    uninitialised storage held. *)
Theorem ring_slots_after_appends (uninit xs : list A) rb :
  append_all xs (RingBuffer_init uninit) = (rb, Ok tt) ->
  length (buffer rb) = length uninit /\
  write_idx rb = length xs mod length uninit /\
  (full rb = true <-> 0 < length uninit /\ length uninit <= length xs) /\
  (forall i, i < length xs -> length xs <= i + length uninit ->
     buffer rb !! (i mod length uninit) = xs !! i) /\
  (forall j, length xs <= j -> buffer rb !! j = uninit !! j).
Proof.
  intros Hall.
  pose proof (slots_append_all uninit xs [] _ _ (slots_init uninit) Hall) as Hs.
  destruct Hs as (Hlen & _ & Hw & Hf & Hsl & Hun). done.
Qed.
End RingSlots.


(* ================================================================== *)
(** ** A whole payload, a whole feed *)
(* ================================================================== *)

Section IngestFacts.
Context {Price : Type}.
Variable float_of_int : Z -> option Price.
Variable half_written : Row Price -> Tuple Price -> Row Price.
Variable process_data : list byte -> option (Update Price).
Implicit Types (s : State (Row Price)) (update : Update Price).

Lemma append_all_app {X} (l1 l2 : list X) (rb rb1 : RingBuffer X) :
  append_all l1 rb = (rb1, Ok tt) ->
  append_all (l1 ++ l2) rb = append_all l2 rb1.
Proof.
  revert rb. induction l1 as [|x l1 IH]; intros rb.
  - by intros [= ->].
  - unfold append_all in *. simpl. unfold bind at 1 2.
    destruct (append x rb) as [rb0 [[]| |]]; try done. apply IH.
Qed.

Lemma ingested_0 s : ingested (ring (self s)) 0 s = s.
Proof. destruct s as [[] []]. unfold ingested. simpl. by rewrite Nat.add_0_r. Qed.

Lemma ingested_ingested rb1 rb2 (k1 k2 : nat) s :
  ingested rb2 k2 (ingested rb1 k1 s) = ingested rb2 (k1 + k2) s.
Proof. unfold ingested. simpl. do 2 f_equal. lia. Qed.

(** One payload whose tuples all cast: the loop appends the records of
    the chain of its updates. *)
Lemma drain_chain (fuel : nat) : forall remaining rows s,
  ring_wf (ring (self s)) ->
  casts_to float_of_int
    (tuples_of_chain (ns_clock (env s)) (ns_reads (env s))
       (chain process_data fuel remaining).1) rows ->
  exists rb',
    append_all rows (ring (self s)) = (rb', Ok tt) /\
    ring_wf rb' /\
    drain float_of_int half_written process_data fuel remaining s
      = (ingested rb' (length rows) s,
         if (chain process_data fuel remaining).2 then Ok tt else OutOfFuel).
Proof.
  assert (Hnil : forall s rows (r : result unit),
            ring_wf (ring (self s)) -> casts_to float_of_int [] rows ->
            exists rb',
              append_all rows (ring (self s)) = (rb', Ok tt) /\
              ring_wf rb' /\ (s, r) = (ingested rb' (length rows) s, r)).
  { intros s rows r Hwf Hcasts. apply Forall2_nil_inv_l in Hcasts as ->.
    exists (ring (self s)). rewrite ingested_0. done. }
  induction fuel as [|fuel IH]; intros remaining rows s Hwf Hcasts.
  - simpl in *. destruct (truthy remaining); simpl in *; by apply Hnil.
  - simpl in *. destruct (truthy remaining); simpl in *; [|by apply Hnil].
    destruct (process_data (default [] remaining)) as [update|]; simpl in *;
      [|by apply Hnil].
    destruct (is_bid_or_ask (update_type update)) eqn:Hkind; simpl.
    + apply Forall2_app_inv_l in Hcasts as (rows1 & rows2 & Hc1 & Hc2 & ->).
      destruct (for_each_append_level float_of_int half_written update
                  (update_depth update) rows1 s Hwf Hc1)
        as (rb1 & Hall1 & Hwf1 & Hfor).
      destruct (IH (remaining_data update) rows2
                   (ingested rb1 (length (update_depth update)) s) Hwf1 Hc2)
        as (rb2 & Hall2 & Hwf2 & Hdrain).
      simpl in Hall2.
      exists rb2. split; [|split; [done|]].
      * by rewrite (append_all_app _ _ _ _ Hall1).
      * unfold bind at 1. rewrite Hfor, Hdrain, ingested_ingested.
        rewrite length_app. apply Forall2_length in Hc1.
        unfold tuples_of_levels in Hc1. rewrite length_imap in Hc1.
        by rewrite Hc1.
    + by apply IH.
Qed.

(** X7.  One payload of the feed, on a ring with a slot, when every
    tuple the loop builds casts to the record dtype: the ingest loop
    appends exactly the records its tuples cast to, those of the Bid and
    Ask updates of the payload's chain, in chain order and level order,
    one clock reading per record, and nothing for updates of other kinds;
    it stops at the first remainder that is empty or that the parser
    rejects, without raising; nothing else of the recorder changes. *)
Theorem message_appends_chain_rows (fuel : nat) (raw : list byte) rows s :
  ring_wf (ring (self s)) ->
  (chain process_data fuel (Some raw)).2 = true ->
  casts_to float_of_int
    (tuples_of_chain (ns_clock (env s)) (ns_reads (env s))
       (chain process_data fuel (Some raw)).1) rows ->
  exists rb',
    append_all rows (ring (self s)) = (rb', Ok tt) /\
    on_message float_of_int half_written process_data fuel raw s
      = (ingested rb' (length rows) s, Ok tt).
Proof.
  intros Hwf Hfin Hcasts.
  destruct (drain_chain fuel (Some raw) rows s Hwf Hcasts) as (rb' & Hall & _ & Hdrain).
  exists rb'. split; [done|]. unfold on_message. rewrite Hdrain, Hfin. done.
Qed.

(** A level: one reading of the clock; when the append returns, the
    record it stored carries that reading. *)
Lemma stamped_append_level C n0 clock hist update (level : Level Price) s s' r :
  stamped C n0 clock hist s ->
  append_level float_of_int half_written update level s = (s', r) ->
  r <> OutOfFuel /\
  (r = Ok tt -> exists row, stamped C n0 clock (hist ++ [row]) s').
Proof.
  intros (Ht & Hts & Hn & Hclk).
  unfold append_level. unfold bind at 1, time_ns at 1.
  unfold on_ring, zoom. simpl. unfold append_tuple.
  destruct (buffer (ring (self s)) !! write_idx (ring (self s))) as [old|];
    [|by intros [= <- <-]].
  destruct (cast float_of_int _) as [e|row] eqn:Hcast; [by intros [= <- <-]|].
  destruct (append row (ring (self s))) as [rb1 r1] eqn:Happ.
  intros [= <- <-]. split.
  { unfold append in Happ.
    destruct (decide _); [destruct (decide _)|]; by injection Happ as <- <-. }
  intros ->. exists row.
  destruct (tracks_append _ _ _ _ _ Ht Happ) as [Ht1 _].
  unfold stamped. simpl. split; [done|].
  rewrite fmap_app, length_app, seq_app, fmap_app. simpl.
  split; [|split; [lia | done]].
  rewrite Hts. f_equal. apply cast_ts in Hcast. simpl in Hcast.
  by rewrite Hcast, Hclk, Hn.
Qed.

Lemma stamped_levels C n0 clock update : forall (levels : list (Level Price)) hist s s' r,
  stamped C n0 clock hist s ->
  for_each (append_level float_of_int half_written update) levels s = (s', r) ->
  r <> OutOfFuel /\
  (r = Ok tt -> exists hist', stamped C n0 clock hist' s').
Proof.
  induction levels as [|level levels IH]; intros hist s s' r Hst Hrun.
  - injection Hrun as <- <-. eauto.
  - simpl in Hrun. unfold bind at 1 in Hrun.
    destruct (append_level float_of_int half_written update level s)
      as [s1 r1] eqn:Hlevel.
    destruct (stamped_append_level _ _ _ _ _ _ _ _ _ Hst Hlevel) as [Hfuel Hok].
    destruct r1 as [[]|e|]; [|by injection Hrun as <- <-|done].
    destruct (Hok eq_refl) as (row & Hst1). by apply (IH (hist ++ [row]) s1).
Qed.

Lemma stamped_drain C n0 clock (fuel : nat) : forall remaining hist s s' r,
  stamped C n0 clock hist s ->
  drain float_of_int half_written process_data fuel remaining s = (s', r) ->
  (forall e, r <> Raise e) ->
  exists hist', stamped C n0 clock hist' s'.
Proof.
  induction fuel as [|fuel IH]; intros remaining hist s s' r Hst Hrun Hr.
  - simpl in Hrun. destruct (truthy remaining); injection Hrun as <- <-; eauto.
  - simpl in Hrun. destruct (truthy remaining); [|injection Hrun as <- <-; eauto].
    destruct (process_data (default [] remaining)) as [update|];
      [|injection Hrun as <- <-; eauto].
    destruct (is_bid_or_ask (update_type update)); simpl in Hrun.
    + unfold bind at 1 in Hrun.
      destruct (for_each _ _ s) as [s1 r1] eqn:Hfor.
      destruct (stamped_levels _ _ _ _ _ _ _ _ _ Hst Hfor) as [Hfuel Hok].
      destruct r1 as [[]|e|]; [| |done].
      * destruct (Hok eq_refl) as (hist1 & Hst1).
        by apply (IH (remaining_data update) hist1 s1 s' r).
      * injection Hrun as <- <-. by destruct (Hr e).
    + by apply (IH (remaining_data update) hist s s' r).
Qed.

Lemma stamped_loop C n0 clock fuel (payloads : list (list byte)) : forall hist s s' r,
  stamped C n0 clock hist s ->
  market_data_loop float_of_int half_written process_data fuel payloads s = (s', r) ->
  (forall e, r <> Raise e) ->
  exists hist', stamped C n0 clock hist' s'.
Proof.
  induction payloads as [|raw payloads IH]; intros hist s s' r Hst Hrun Hr.
  - injection Hrun as <- _. eauto.
  - unfold market_data_loop in *. simpl in Hrun. unfold bind at 1 in Hrun.
    destruct (on_message float_of_int half_written process_data fuel raw s)
      as [s1 r1] eqn:Hmsg.
    destruct r1 as [[]|e|].
    + destruct (stamped_drain _ _ _ _ _ _ _ _ _ Hst Hmsg) as (hist1 & Hst1); [done|].
      by apply (IH hist1 s1 s' r).
    + injection Hrun as <- <-. by destruct (Hr e).
    + injection Hrun as <- <-.
      by apply (stamped_drain _ _ _ _ _ _ _ _ _ Hst Hmsg).
Qed.

(** X8.  However far the ingest loop gets through the payloads of the
    feed on a fresh recorder of capacity [C >= 1], as long as it has not
    raised, with [k] the number of readings it has taken of
    [time.time_ns()]: the buffer holds [min k C] records, and their
    timestamps are the last [min k C] of those readings, in the order they
    were taken, one reading per record.  So when the clock never goes
    back, the timestamps of the linearized view never decrease. *)
Theorem buffered_timestamps_are_clock_readings
    (fuel : nat) (payloads : list (list byte))
    (uninit : list (Row Price)) (w0 : World (Row Price)) s r :
  0 < length uninit ->
  market_data_loop float_of_int half_written process_data fuel payloads
                   (init uninit w0) = (s, r) ->
  (forall e, r <> Raise e) ->
  length (view (ring (self s)))
    = (ns_reads (env s) - ns_reads w0) `min` length uninit /\
  ts <$> view (ring (self s))
    = ns_clock w0
        <$> seq (ns_reads w0 + (ns_reads (env s) - ns_reads w0 - length uninit))
                ((ns_reads (env s) - ns_reads w0) `min` length uninit) /\
  ((forall i j, i <= j -> (ns_clock w0 i <= ns_clock w0 j)%Z) ->
   forall i j a b,
     i <= j ->
     (ts <$> view (ring (self s))) !! i = Some a ->
     (ts <$> view (ring (self s))) !! j = Some b ->
     (a <= b)%Z).
Proof.
  intros HC Hrun Hr.
  assert (Hst0 : stamped (length uninit) (ns_reads w0) (ns_clock w0) [] (init uninit w0)).
  { unfold stamped. simpl. split; [apply tracks_init|].
    split; [done|]. split; [lia | done]. }
  destruct (stamped_loop _ _ _ _ _ _ _ _ _ Hst0 Hrun Hr)
    as (hist & Ht & Hts & Hn & _).
  pose proof (tracks_length_view _ _ _ Ht) as Hlen.
  assert (Hk : ns_reads (env s) - ns_reads w0 = length hist) by lia.
  rewrite Hk.
  assert (Hview : ts <$> view (ring (self s))
                  = ns_clock w0
                      <$> seq (ns_reads w0 + (length hist - length uninit))
                              (length hist `min` length uninit)).
  { destruct Ht as (_ & _ & _ & Hv & _).
    rewrite Hv, fmap_drop, Hts, <- fmap_drop, drop_seq. do 2 f_equal. lia. }
  split; [done|]. split; [done|].
  intros Hmono i j a b Hij. rewrite Hview, !list_lookup_fmap.
  destruct (seq _ _ !! i) as [ni|] eqn:Hi; [|done].
  destruct (seq _ _ !! j) as [nj|] eqn:Hj; [|done].
  apply lookup_seq in Hi, Hj. destruct Hi as [-> _]. destruct Hj as [-> _].
  simpl. intros [= <-] [= <-]. apply Hmono. lia.
Qed.
End IngestFacts.


(* ================================================================== *)
(** ** The single-shot recorders on a buffer with a history *)
(* ================================================================== *)

Section SingleShotHistory.
Context {A : Type}.
Implicit Types (s : State A) (xs : list A).

Lemma append_all_init_tracks (uninit xs : list A) rb :
  append_all xs (RingBuffer_init uninit) = (rb, Ok tt) ->
  tracks (length uninit) xs rb.
Proof.
  intros Hall. destruct xs as [|x xs].
  - injection Hall as <-. apply tracks_init.
  - assert (HC : 0 < length uninit).
    { unfold append_all in Hall. simpl in Hall. unfold bind at 1, append at 1 in Hall.
      simpl in Hall. destruct (decide (0 < length uninit)); [done|]. done. }
    destruct (append_all_tracks _ [] _ (x :: xs) HC (tracks_init uninit))
      as (rb' & Hall' & Ht).
    rewrite Hall in Hall'. by injection Hall' as <-.
Qed.

Lemma view_of_history (uninit xs : list A) s :
  append_all xs (RingBuffer_init uninit) = (ring (self s), Ok tt) ->
  view (ring (self s)) = drop (length xs - length uninit) xs /\
  (xs <> [] -> view (ring (self s)) <> []).
Proof.
  intros Hall. pose proof (append_all_init_tracks _ _ _ Hall) as Ht.
  pose proof (tracks_length_view _ _ _ Ht) as Hlen.
  destruct Ht as (_ & _ & Hw & Hv & _). split; [done|].
  intros Hne Hnil. rewrite Hnil in Hlen.
  destruct xs as [|x xs]; [done|].
  assert (length uninit = 0).
  { change (length (@nil A)) with 0 in Hlen.
    change (length (x :: xs)) with (S (length xs)) in Hlen. lia. }
  unfold append_all in Hall. simpl in Hall. unfold bind at 1, append at 1 in Hall.
  simpl in Hall. destruct (decide (0 < length uninit)); [lia | done].
Qed.

(** X9.  [market_recorder.py]: on a buffer nothing was ever appended to,
    a flush tick writes nothing and creates no file; after [n >= 1]
    appends a tick writes, when the write succeeds, one file named after
    the clock that holds exactly the last [min n C] appended rows, oldest
    first, whatever earlier ticks wrote, and leaves the recorder as it
    was. *)
Theorem snapshot_tick_writes_recent_rows (uninit xs : list A) s :
  append_all xs (RingBuffer_init uninit) = (ring (self s), Ok tt) ->
  faults (env s) = [] ->
  (xs = [] -> SingleShot.flush_tick_snapshot s = (s, Ok tt)) /\
  (xs <> [] ->
     exists s',
       SingleShot.flush_tick_snapshot s = (s', Ok tt) /\
       self s' = self s /\
       log (env s')
         = log (env s)
           ++ [WriteTable (SingleShot.snapshot_path
                             (wall_clock (env s) (wall_reads (env s))))
                          (drop (length xs - length uninit) xs)]).
Proof.
  intros Hall Hf. destruct (view_of_history _ _ _ Hall) as [Hv Hne]. split.
  - intros ->. unfold SingleShot.flush_tick_snapshot. unfold bind.
    rewrite on_ring_view, Hv. done.
  - intros Hxs.
    destruct (flush_tick_snapshot_whole_view s (Hne Hxs) Hf) as (s' & Ht & Hs & Hl).
    exists s'. rewrite <- Hv. done.
Qed.

(** X10.  [data_from_dhan_util.py]: the same for its flush tick, which
    creates the day's directory and writes the whole view to the bucket
    file of the tick's two clock readings; on a buffer nothing was ever
    appended to it does neither. *)
Theorem bucket_tick_writes_recent_rows (uninit xs : list A) s :
  append_all xs (RingBuffer_init uninit) = (ring (self s), Ok tt) ->
  faults (env s) = [] ->
  (xs = [] -> SingleShot.flush_tick_bucket s = (s, Ok tt)) /\
  (xs <> [] ->
     exists s',
       SingleShot.flush_tick_bucket s = (s', Ok tt) /\
       self s' = self s /\
       log (env s')
         = log (env s)
           ++ [Makedirs (bucket_dir (wall_clock (env s) (wall_reads (env s))));
               WriteTable (bucket_path (wall_clock (env s) (wall_reads (env s)))
                                       (wall_clock (env s) (S (wall_reads (env s)))))
                          (drop (length xs - length uninit) xs)]).
Proof.
  intros Hall Hf. destruct (view_of_history _ _ _ Hall) as [Hv Hne]. split.
  - intros ->. unfold SingleShot.flush_tick_bucket. unfold bind.
    rewrite on_ring_view, Hv. done.
  - intros Hxs.
    destruct (flush_tick_bucket_whole_view s (Hne Hxs) Hf) as (s' & Ht & Hs & Hl).
    exists s'. rewrite <- Hv. done.
Qed.

(** X11.  [data_from_dhan_util.py]: when [run] is cancelled right after a
    flush tick, the final flush writes to the final file every row that
    tick wrote, a second time: the final file is no delta but the whole
    view again; [run] then raises [CancelledError]. *)
Theorem final_snapshot_repeats_last_flush (uninit xs : list A) s :
  append_all xs (RingBuffer_init uninit) = (ring (self s), Ok tt) ->
  xs <> [] ->
  faults (env s) = [] ->
  exists s1 s2,
    SingleShot.flush_tick_bucket s = (s1, Ok tt) /\
    SingleShot.shutdown_snapshot s1 = (s2, Raise CancelledError) /\
    log (env s2)
      = log (env s)
        ++ [Makedirs (bucket_dir (wall_clock (env s) (wall_reads (env s))));
            WriteTable (bucket_path (wall_clock (env s) (wall_reads (env s)))
                                    (wall_clock (env s) (S (wall_reads (env s)))))
                       (drop (length xs - length uninit) xs);
            WriteTable (SingleShot.final_snapshot_path
                          (wall_clock (env s) (S (S (wall_reads (env s))))))
                       (drop (length xs - length uninit) xs)].
Proof.
  intros Hall Hxs Hf. destruct (view_of_history _ _ _ Hall) as [Hv Hne].
  specialize (Hne Hxs). rewrite <- Hv.
  unfold SingleShot.flush_tick_bucket, SingleShot.shutdown_snapshot.
  unfold bind at 1 4. rewrite on_ring_view.
  destruct (decide _) as [H0|_]; [by apply nil_length_inv in H0|].
  destruct s as [m [lg fl wc wr nc nr]]; simpl in *. subst fl.
  exec_m. eexists _, _. split; [reflexivity|].
  unfold on_ring, zoom. rewrite linear_view_run. simpl.
  destruct (decide _) as [H0|_]; [by apply nil_length_inv in H0|].
  exec_m. split; [reflexivity|]. by rewrite <- !app_assoc.
Qed.
End SingleShotHistory.

(* ================================================================== *)
(** ** One bucket file per day and minute *)
(* ================================================================== *)

Lemma string_app_inj (s1 s2 t1 t2 : string) :
  String.length s1 = String.length s2 ->
  (s1 ++ t1)%string = (s2 ++ t2)%string -> s1 = s2 /\ t1 = t2.
Proof.
  revert s2. induction s1 as [|a s1 IH]; intros [|b s2]; simpl; try done.
  intros [= Hlen] [= -> Happ]. destruct (IH s2 Hlen Happ) as [-> ->]. done.
Qed.

Lemma string_snoc_inj (s1 s2 : string) (a b : ascii) :
  (s1 ++ String a EmptyString)%string = (s2 ++ String b EmptyString)%string ->
  s1 = s2 /\ a = b.
Proof.
  revert s2. induction s1 as [|c s1 IH]; intros [|d s2]; simpl.
  - by intros [= ->].
  - intros [= -> H]. by destruct s2.
  - intros [= -> H]. by destruct s1.
  - intros [= -> H]. destruct (IH s2 H) as [-> ->]. done.
Qed.

Lemma string_length_app (s t : string) :
  String.length (s ++ t) = String.length s + String.length t.
Proof. induction s as [|c s IH]; simpl; [done|]. by rewrite IH. Qed.

Lemma length_digits (w n : nat) : String.length (digits w n) = w.
Proof.
  revert n. induction w as [|w IH]; intros n; simpl; [done|].
  rewrite string_length_app, IH. simpl. lia.
Qed.

(** Two strings built alike from decimals of the same widths are as long. *)
Ltac same_length :=
  repeat (rewrite !string_length_app || rewrite !length_digits); reflexivity.

Lemma digit_inj (n m : nat) : digit n = digit m -> n mod 10 = m mod 10.
Proof.
  unfold digit. intros H.
  pose proof (Nat.mod_upper_bound n 10). pose proof (Nat.mod_upper_bound m 10).
  apply (f_equal nat_of_ascii) in H.
  rewrite !nat_ascii_embedding in H by lia. lia.
Qed.

(** Zero-padded decimals of a width tell numbers of that width apart. *)
Lemma digits_inj (w : nat) : forall n m,
  n < 10 ^ w -> m < 10 ^ w -> digits w n = digits w m -> n = m.
Proof.
  induction w as [|w IH]; intros n m Hn Hm; simpl in *.
  - lia.
  - intros H. destruct (string_snoc_inj _ _ _ _ H) as [Hhi Hlo].
    apply digit_inj in Hlo.
    assert (Hq : n / 10 = m / 10).
    { apply IH; [| |done]; apply Nat.Div0.div_lt_upper_bound; lia. }
    pose proof (Nat.div_mod_eq n 10). pose proof (Nat.div_mod_eq m 10). lia.
Qed.

(** X12.  Two flush ticks of the incremental recorder target the same
    bucket file exactly when the first clock readings of the two ticks
    fall on the same calendar day and their second readings in the same
    hour and minute: rows flushed in different minutes or on different
    days never share a bucket file, and ticks within one minute never
    roll the writer over. *)
Theorem bucket_path_same_file (d1 d2 e1 e2 : datetime) :
  datetime_ok d1 -> datetime_ok d2 -> datetime_ok e1 -> datetime_ok e2 ->
  bucket_path d1 d2 = bucket_path e1 e2 <->
  (year d1 = year e1 /\ month d1 = month e1 /\ day d1 = day e1) /\
  (hour d2 = hour e2 /\ minute d2 = minute e2).
Proof.
  intros (Hy1 & Hm1 & Hd1 & _) (_ & _ & _ & Hh2 & Hn2)
         (Hy1' & Hm1' & Hd1' & _) (_ & _ & _ & Hh2' & Hn2').
  split.
  - unfold bucket_path, bucket_dir, path_join, strftime_Ymd, strftime_HM.
    intros H.
    apply string_app_inj in H as [Hdir Hfile]; [|same_length].
    apply string_app_inj in Hdir as [_ Hdate]; [|same_length].
    apply string_app_inj in Hdate as [_ Hdate]; [|same_length].
    apply string_app_inj in Hdate as [Hy Hrest]; [|same_length].
    apply string_app_inj in Hrest as [_ Hrest]; [|same_length].
    apply string_app_inj in Hrest as [Hm Hd]; [|same_length].
    apply string_app_inj in Hd as [_ Hd]; [|same_length].
    apply string_app_inj in Hfile as [_ Hfile]; [|same_length].
    apply string_app_inj in Hfile as [Hfile _]; [|same_length].
    apply string_app_inj in Hfile as [Hh Hn]; [|same_length].
    apply string_app_inj in Hn as [_ Hn]; [|same_length].
    apply digits_inj in Hy; [|change (10 ^ 4) with 10000; lia..].
    apply digits_inj in Hm; [|change (10 ^ 2) with 100; lia..].
    apply digits_inj in Hd; [|change (10 ^ 2) with 100; lia..].
    apply digits_inj in Hh; [|change (10 ^ 2) with 100; lia..].
    apply digits_inj in Hn; [|change (10 ^ 2) with 100; lia..].
    done.
  - intros [(Hy & Hm & Hd) (Hh & Hn)].
    unfold bucket_path, bucket_dir, strftime_Ymd, strftime_HM.
    by rewrite Hy, Hm, Hd, Hh, Hn.
Qed.


(* ================================================================== *)
(** ** market_recorder.py: a whole payload *)
(* ================================================================== *)

Section FlatIngestFacts.
Context {Time Price : Type}.
Variable float_of_int : Z -> option Price.
Variable half_written : FlatRow Time Price -> FlatTuple Time Price -> FlatRow Time Price.
Variable process_data : list byte -> option (FlatUpdate Price).
Variable time_time : nat -> Time.
Implicit Types (s : State (FlatRow Time Price)).

Lemma flat_ingested_0 s : flat_ingested (ring (self s)) 0 s = s.
Proof. destruct s as [[] []]. unfold flat_ingested. simpl. by rewrite Nat.add_0_r. Qed.

(** On a ring with a slot, the append of a tuple that casts is the append
    of the record. *)
Lemma append_flat_tuple_cast (t : FlatTuple Time Price) row
    (rb : RingBuffer (FlatRow Time Price)) :
  ring_wf rb -> flat_cast float_of_int t = inr row ->
  append_flat_tuple float_of_int half_written t rb = append row rb.
Proof.
  intros [Hlen Hidx] Hcast. unfold append_flat_tuple.
  destruct (buffer rb !! write_idx rb) as [old|] eqn:Hslot.
  - by rewrite Hcast.
  - apply lookup_ge_None in Hslot. lia.
Qed.

(** A cast that does not raise: what the record holds. *)
Lemma flat_cast_inv (t : FlatTuple Time Price) row :
  flat_cast float_of_int t = inr row ->
  flat_ts row = flat_tuple_ts t /\
  flat_security_id row = cast_U 20 (py_str (flat_tuple_security_id t)) /\
  flat_side row = cast_U 3 (flat_tuple_side t) /\
  cast_float64 float_of_int (flat_tuple_price t) = inr (flat_price row) /\
  flat_qty row = flat_tuple_qty t /\
  int_fits 32 (flat_tuple_qty t) = true.
Proof.
  unfold flat_cast, cast_int.
  destruct (cast_float64 _ _); [done|].
  destruct (int_fits 32 _); [|done].
  by intros [= <-].
Qed.

Lemma drain_flat_chain (fuel : nat) : forall remaining rows s,
  ring_wf (ring (self s)) ->
  flat_casts_to float_of_int
    (tuples_of_flat_chain time_time (ns_reads (env s))
       (flat_chain process_data fuel remaining).1) rows ->
  exists rb',
    append_all rows (ring (self s)) = (rb', Ok tt) /\
    ring_wf rb' /\
    drain_flat float_of_int half_written process_data time_time fuel remaining s
      = (flat_ingested rb' (length rows) s,
         if (flat_chain process_data fuel remaining).2 then Ok tt else OutOfFuel).
Proof.
  assert (Hnil : forall s rows (r : result unit),
            ring_wf (ring (self s)) -> flat_casts_to float_of_int [] rows ->
            exists rb',
              append_all rows (ring (self s)) = (rb', Ok tt) /\
              ring_wf rb' /\ (s, r) = (flat_ingested rb' (length rows) s, r)).
  { intros s rows r Hwf Hcasts. apply Forall2_nil_inv_l in Hcasts as ->.
    exists (ring (self s)). rewrite flat_ingested_0. done. }
  induction fuel as [|fuel IH]; intros remaining rows s Hwf Hcasts.
  - simpl in *. destruct (truthy remaining); simpl in *; by apply Hnil.
  - simpl in *. destruct (truthy remaining); simpl in *; [|by apply Hnil].
    destruct (process_data (default [] remaining)) as [update|]; simpl in *;
      [|by apply Hnil].
    destruct (is_bid_or_ask (flat_update_type update)) eqn:Hkind; simpl.
    + apply Forall2_cons_inv_l in Hcasts as (row & rows' & Hrow & Hrest & ->).
      destruct (append_ok (ring (self s)) row Hwf) as (rb1 & Happ & Hwf1).
      destruct (IH (flat_remaining_data update) rows' (flat_ingested rb1 1 s) Hwf1)
        as (rb2 & Hall2 & Hwf2 & Hdrain).
      { simpl. by replace (ns_reads (env s) + 1) with (S (ns_reads (env s))) by lia. }
      simpl in Hall2.
      exists rb2. split; [|split; [done|]].
      * unfold append_all in *. simpl. unfold bind at 1. by rewrite Happ.
      * unfold bind at 1. unfold append_update at 1.
        unfold bind at 1, time_now at 1. unfold on_ring at 1, zoom. simpl.
        rewrite (append_flat_tuple_cast _ row _ Hwf Hrow), Happ.
        replace (set_ring rb1 _) with (flat_ingested rb1 1 s)
          by (unfold flat_ingested, set_ring; simpl; do 2 f_equal; lia).
        rewrite Hdrain. unfold flat_ingested. simpl. do 3 f_equal. lia.
    + by apply IH.
Qed.

Lemma length_tuples_of_flat_chain (us : list (FlatUpdate Price)) : forall n,
  length (tuples_of_flat_chain time_time n us)
  = length (filter (fun u => is_bid_or_ask (flat_update_type u) = true) us).
Proof.
  induction us as [|u us IH]; intros n; simpl; [done|].
  rewrite filter_cons.
  destruct (decide (is_bid_or_ask (flat_update_type u) = true)) as [Hk|Hk].
  - rewrite Hk. simpl. by rewrite IH.
  - destruct (is_bid_or_ask (flat_update_type u)); [done | apply IH].
Qed.

Lemma tuples_of_flat_chain_imap (us : list (FlatUpdate Price)) : forall n,
  tuples_of_flat_chain time_time n us
  = imap (fun i u => flat_tuple_of u (time_time (n + i)))
         (filter (fun u => is_bid_or_ask (flat_update_type u) = true) us).
Proof.
  induction us as [|u us IH]; intros n; simpl; [done|].
  rewrite filter_cons.
  destruct (decide (is_bid_or_ask (flat_update_type u) = true)) as [Hk|Hk].
  - rewrite Hk. simpl. rewrite Nat.add_0_r. f_equal. rewrite IH.
    apply imap_ext. intros i x _. simpl. do 2 f_equal. lia.
  - destruct (is_bid_or_ask (flat_update_type u)); [done | apply IH].
Qed.

(** X13.  [market_recorder.py], one payload on a ring with a slot, when
    every tuple the loop builds casts to the record dtype: the loop
    appends exactly one record for each Bid or Ask update of the payload's
    chain, in chain order, and no record for updates of other kinds.
    Record [i] carries a reading of [time.time()] of its own, the [str]
    of the update's security id cut to 20 characters, the update's type,
    its price as a float64 and its quantity.  The loop stops without
    raising at the first remainder that is empty or that the parser
    rejects; nothing else of the recorder changes. *)
Theorem flat_message_appends_one_row_per_quote (fuel : nat) (raw : list byte) rows s :
  ring_wf (ring (self s)) ->
  (flat_chain process_data fuel (Some raw)).2 = true ->
  flat_casts_to float_of_int
    (tuples_of_flat_chain time_time (ns_reads (env s))
       (flat_chain process_data fuel (Some raw)).1) rows ->
  exists rb',
    append_all rows (ring (self s)) = (rb', Ok tt) /\
    length rows
      = length (filter (fun u => is_bid_or_ask (flat_update_type u) = true)
                       (flat_chain process_data fuel (Some raw)).1) /\
    (forall i row,
       rows !! i = Some row ->
       exists u,
         (filter (fun u => is_bid_or_ask (flat_update_type u) = true)
                 (flat_chain process_data fuel (Some raw)).1) !! i = Some u /\
         flat_ts row = time_time (ns_reads (env s) + i) /\
         flat_security_id row = cast_U 20 (py_str (flat_update_security_id u)) /\
         flat_side row = flat_update_type u /\
         cast_float64 float_of_int (flat_update_price u) = inr (flat_price row) /\
         flat_qty row = flat_update_qty u) /\
    drain_flat float_of_int half_written process_data time_time fuel (Some raw) s
      = (flat_ingested rb' (length rows) s, Ok tt).
Proof.
  intros Hwf Hfin Hcasts.
  destruct (drain_flat_chain fuel (Some raw) rows s Hwf Hcasts)
    as (rb' & Hall & _ & Hdrain).
  exists rb'. split; [done|].
  split; [|split; [|by rewrite Hdrain, Hfin]].
  - apply Forall2_length in Hcasts. rewrite <- Hcasts.
    apply length_tuples_of_flat_chain.
  - intros i row Hi. unfold flat_casts_to in Hcasts.
    rewrite tuples_of_flat_chain_imap in Hcasts.
    destruct (Forall2_lookup_r _ _ _ _ _ Hcasts Hi) as (t & Ht & Hcast).
    rewrite list_lookup_imap in Ht.
    destruct (filter _ _ !! i) as [u|] eqn:Hu; [|done].
    simpl in Ht. injection Ht as <-. exists u. split; [done|].
    destruct (flat_cast_inv _ _ Hcast) as (Hts & Hid & Hside & Hp & Hq & _).
    simpl in *. split; [done|]. split; [done|]. split; [|done].
    rewrite Hside.
    apply list_elem_of_lookup_2, list_elem_of_filter in Hu as [Hk _].
    unfold is_bid_or_ask in Hk. apply orb_true_iff in Hk as [Hk | Hk];
      apply bool_decide_eq_true in Hk; rewrite Hk; reflexivity.
Qed.
End FlatIngestFacts.


(* ================================================================== *)
(** ** The further properties on concrete executions *)
(* ================================================================== *)

(** After the tick on the full buffer, rows 4 and 5, a tick and the
    cancellation write nothing. *)
Lemma no_write_after_full_tick_demo :
  last_flush_idx (self (flush_tick (apply_ops demo_full_ops demo_init)).1) = 3 /\
  written (log (env (apply_ops [OpAppend 4; OpAppend 5; OpTick; OpCancel]
                       (flush_tick (apply_ops demo_full_ops demo_init)).1)))
    = [1; 2; 3].
Proof.
  destruct (no_write_after_full_tick [0; 0; 0] demo_world demo_full_ops
              [OpAppend 4; OpAppend 5; OpTick; OpCancel] eq_refl) as [Hc Hw].
  split; [exact Hc|]. etrans; [exact Hw | reflexivity].
Defined.


(** After the tick that wrote row 3, five more ticks change nothing. *)
Lemma parquet_flush_idempotent_demo :
  parquet_flush 5 (flush_tick demo_one_pending).1
    = ((flush_tick demo_one_pending).1, Ok tt).
Proof.
  apply (parquet_flush_idempotent demo_one_pending).
  vm_compute. reflexivity.
Defined.

(** Two buckets and a shutdown: the log follows the protocol and ends
    with no writer open. *)
Lemma writer_protocol_respected_demo :
  writer_protocol None (log (env (run demo_two_buckets_ops demo_init).1)) = Some None.
Proof.
  destruct (writer_protocol_respected [0; 0; 0] demo_world demo_two_buckets_ops
              (run demo_two_buckets_ops demo_init).1
              (run demo_two_buckets_ops demo_init).2) as (c & Hc & _ & Hcancel).
  - reflexivity.
  - vm_compute. reflexivity.
  - rewrite Hc. f_equal. apply Hcancel. vm_compute. reflexivity.
Defined.

(** Four appends on storage [7; 8; 9]: the fourth row sits in slot 0 and
    [write_idx] is 1. *)
Lemma ring_slots_after_appends_demo :
  write_idx (append_all [1; 2; 3; 4] (RingBuffer_init [7; 8; 9])).1 = 4 mod 3 /\
  buffer (append_all [1; 2; 3; 4] (RingBuffer_init [7; 8; 9])).1 !! (3 mod 3)
    = [1; 2; 3; 4] !! 3.
Proof.
  destruct (ring_slots_after_appends [7; 8; 9] [1; 2; 3; 4]
              (append_all [1; 2; 3; 4] (RingBuffer_init [7; 8; 9])).1)
    as (_ & Hw & _ & Hslot & _).
  - vm_compute. reflexivity.
  - split; [exact Hw|]. apply (Hslot 3); simpl; lia.
Defined.

(** The Bid payload with its chained payload of another kind: two
    records. *)
Lemma message_appends_chain_rows_demo :
  exists rb',
    view rb' = [mkRow 1000%Z "53001" "Bid" 25010%Z 75%Z;
                mkRow 1001%Z "53001" "Bid" 25005%Z 150%Z] /\
    on_message demo_float_of_int demo_half_written demo_process_data 5 [x62]
               demo_ingest_init
      = (ingested rb' 2 demo_ingest_init, Ok tt).
Proof.
  destruct (message_appends_chain_rows demo_float_of_int demo_half_written
              demo_process_data 5 [x62]
              [mkRow 1000%Z "53001" "Bid" 25010%Z 75%Z;
               mkRow 1001%Z "53001" "Bid" 25005%Z 150%Z]
              demo_ingest_init)
    as (rb' & Hall & Hmsg).
  - split; simpl; lia.
  - reflexivity.
  - repeat constructor.
  - exists rb'. split; [|exact Hmsg].
    vm_compute in Hall. injection Hall as <-. reflexivity.
Defined.

(** The Bid payload twice on capacity 3: four readings, the last three in
    the buffer. *)
Lemma buffered_timestamps_are_clock_readings_demo :
  ts <$> view (ring (self (market_data_loop demo_float_of_int demo_half_written
                             demo_process_data 5 [[x62]; [x62]]
                             demo_ingest_init).1))
    = [1001; 1002; 1003]%Z.
Proof.
  destruct (buffered_timestamps_are_clock_readings demo_float_of_int
              demo_half_written demo_process_data 5
              [[x62]; [x62]] (replicate 3 (mkRow 0%Z "" "" 0%Z 0%Z))
              (env demo_ingest_init)
              (market_data_loop demo_float_of_int demo_half_written
                 demo_process_data 5 [[x62]; [x62]] demo_ingest_init).1
              (market_data_loop demo_float_of_int demo_half_written
                 demo_process_data 5 [[x62]; [x62]] demo_ingest_init).2)
    as (_ & Hts & _).
  - simpl. lia.
  - vm_compute. reflexivity.
  - intros e. vm_compute. discriminate.
  - etrans; [exact Hts | vm_compute; reflexivity].
Defined.

(** Rows 1 to 4 on capacity 3: the snapshot tick writes [2; 3; 4]. *)
Lemma snapshot_tick_writes_recent_rows_demo :
  exists s',
    SingleShot.flush_tick_snapshot demo_four_appended = (s', Ok tt) /\
    log (env s') = [WriteTable "nifty_fut_20261103_0915.parquet" [2; 3; 4]].
Proof.
  destruct (snapshot_tick_writes_recent_rows [0; 0; 0] [1; 2; 3; 4] demo_four_appended)
    as [_ Hwrite].
  - vm_compute. reflexivity.
  - reflexivity.
  - destruct Hwrite as (s' & Htick & _ & Hlog); [discriminate|].
    exists s'. split; [exact Htick | exact Hlog].
Defined.

(** The same rows through the bucket tick of [data_from_dhan_util.py]. *)
Lemma bucket_tick_writes_recent_rows_demo :
  exists s',
    SingleShot.flush_tick_bucket demo_four_appended = (s', Ok tt) /\
    log (env s')
      = [Makedirs "market_data/NIFTY_FUT/2026-11-03";
         WriteTable "market_data/NIFTY_FUT/2026-11-03/09_16.parquet" [2; 3; 4]].
Proof.
  destruct (bucket_tick_writes_recent_rows [0; 0; 0] [1; 2; 3; 4] demo_four_appended)
    as [_ Hwrite].
  - vm_compute. reflexivity.
  - reflexivity.
  - destruct Hwrite as (s' & Htick & _ & Hlog); [discriminate|].
    exists s'. split; [exact Htick | exact Hlog].
Defined.

(** A tick and then the cancellation: [2; 3; 4] is written twice. *)
Lemma final_snapshot_repeats_last_flush_demo :
  exists s1 s2,
    SingleShot.flush_tick_bucket demo_four_appended = (s1, Ok tt) /\
    SingleShot.shutdown_snapshot s1 = (s2, Raise CancelledError) /\
    log (env s2)
      = [Makedirs "market_data/NIFTY_FUT/2026-11-03";
         WriteTable "market_data/NIFTY_FUT/2026-11-03/09_16.parquet" [2; 3; 4];
         WriteTable "nifty_fut_20261103_0917_FINAL.parquet" [2; 3; 4]].
Proof.
  apply (final_snapshot_repeats_last_flush [0; 0; 0] [1; 2; 3; 4] demo_four_appended).
  - vm_compute. reflexivity.
  - discriminate.
  - reflexivity.
Defined.

(** Readings on the same day and in the same minute: one bucket file. *)
Lemma bucket_path_same_file_demo :
  bucket_path (mkDatetime 2026 11 3 9 15) (mkDatetime 2026 11 3 9 16)
    = bucket_path (mkDatetime 2026 11 3 9 16) (mkDatetime 2026 11 3 9 16).
Proof.
  apply (bucket_path_same_file (mkDatetime 2026 11 3 9 15) (mkDatetime 2026 11 3 9 16)
           (mkDatetime 2026 11 3 9 16) (mkDatetime 2026 11 3 9 16));
    try (unfold datetime_ok; simpl; repeat split; apply Nat.ltb_lt;
         vm_compute; reflexivity);
    repeat split; reflexivity.
Defined.

(** The Bid quote with its chained quote of another kind: one record,
    the int security id as text. *)
Lemma flat_message_appends_one_row_per_quote_demo :
  exists rb',
    view rb' = [mkFlatRow 1000%Z "53001" "Bid" 25010%Z 75%Z] /\
    drain_flat demo_float_of_int demo_flat_half_written demo_flat_process_data
               (fun n => Z.of_nat (1000 + n)) 5 (Some [x62]) demo_flat_init
      = (flat_ingested rb' 1 demo_flat_init, Ok tt).
Proof.
  destruct (flat_message_appends_one_row_per_quote demo_float_of_int
              demo_flat_half_written demo_flat_process_data
              (fun n => Z.of_nat (1000 + n)) 5 [x62]
              [mkFlatRow 1000%Z "53001" "Bid" 25010%Z 75%Z] demo_flat_init)
    as (rb' & Hall & _ & _ & Hmsg).
  - split; simpl; lia.
  - reflexivity.
  - repeat constructor.
  - exists rb'. split; [|exact Hmsg].
    vm_compute in Hall. injection Hall as <-. reflexivity.
Defined.
